(** * LoveMoney.help: the embed lifecycle controller, the compatibility
    scorer and report, the guide's calculator, search and navigation, and
    the service worker's routing, embedded from [src/js/compatibility.js],
    [src/js/guide.js] and [src/sw.js].

    Numbers are modelled as mathematical integers ([Z]), on which the
    code's IEEE doubles are exact up to 2^53: a statement about amounts
    carries the range it is exact on as a hypothesis, and the calculator's
    loop is given a second time on doubles ([GuideController.Doubles]) for
    the amounts beyond it.  Strings are byte strings, which are the code's
    strings on ASCII text. *)

From Stdlib Require Import ZArith String Ascii Lia Sorted.
From Stdlib Require Import Floats.PrimFloat Uint63.
From stdpp Require Import base option list strings gmap pretty.

Open Scope Z_scope.

(** ** JavaScript values *)

Module Js.

(** The JSON-shaped values a [MessageEvent] can carry as [event.data]. *)
#[local] Set Warnings "-register-all".
Inductive value : Type :=
| Undefined
| Null
| Bool (b : bool)
| Num (n : Z)
| Str (s : string)
| Obj (fields : list (string * value))
| Arr (items : list value).

(** What a [throw] carries. *)
Inductive exn : Type :=
| TypeError (what : string)
| SyntaxError (what : string)
| Thrown (v : value).

(** ToBoolean, as [||] and [if] use it. *)
Definition truthy (v : value) : bool :=
  match v with
  | Undefined | Null => false
  | Bool b => b
  | Num n => negb (n =? 0)
  | Str s => negb (String.eqb s "")
  | Obj _ | Arr _ => true
  end.

(** [a || b] *)
Definition or_else (a b : value) : value := if truthy a then a else b.

Definition join_comma (parts : list string) : string :=
  match parts with
  | [] => ""
  | p :: rest => fold_left (fun acc q => acc +:+ "," +:+ q) rest p
  end.

(** ToString, as a template literal applies it to an interpolated value.
    A number is printed digit by digit, as the code prints an integer below
    [1e21]. *)
Fixpoint to_string (v : value) : string :=
  match v with
  | Undefined => "undefined"
  | Null => "null"
  | Bool true => "true"
  | Bool false => "false"
  | Num n => pretty n
  | Str s => s
  | Obj _ => "[object Object]"
  | Arr items =>
      join_comma
        (List.map (fun x => match x with
                            | Undefined | Null => ""
                            | _ => to_string x
                            end) items)
  end.

Fixpoint assoc (key : string) (fields : list (string * value)) : value :=
  match fields with
  | [] => Undefined
  | (k, v) :: rest => if String.eqb k key then v else assoc key rest
  end.

(** [v.key]: a TypeError on [null] and [undefined], [undefined] on a
    primitive or on an object without the key. *)
Definition get (v : value) (key : string) : exn + value :=
  match v with
  | Undefined | Null => inl (TypeError "Cannot read properties")
  | Obj fields => inr (assoc key fields)
  | _ => inr Undefined
  end.

(** [s.toLowerCase()] on the ASCII range. *)
Definition lower_ascii (c : ascii) : ascii :=
  let n := nat_of_ascii c in
  if ((65 <=? n)%nat && (n <=? 90)%nat)%bool then ascii_of_nat (n + 32) else c.

Fixpoint toLowerCase (s : string) : string :=
  match s with
  | EmptyString => EmptyString
  | String c rest => String (lower_ascii c) (toLowerCase rest)
  end.

(** [s.includes(sub)] *)
Fixpoint includes (s sub : string) : bool :=
  String.prefix sub s
  || match s with
     | EmptyString => false
     | String _ rest => includes rest sub
     end.

(** [s.split(' ')] *)
Fixpoint split_space_aux (cur : string) (s : string) : list string :=
  match s with
  | EmptyString => [cur]
  | String c rest =>
      if Ascii.eqb c " " then cur :: split_space_aux "" rest
      else split_space_aux (cur +:+ String c "") rest
  end.

Definition split_space (s : string) : list string := split_space_aux "" s.

(** [Math.round(num / den)] for a positive [den]: halves round up. *)
Definition round_div (num den : Z) : Z := (2 * num + den) / (2 * den).

(** [Math.ceil(num / den)] for a positive [den]. *)
Definition ceil_div (num den : Z) : Z := - ((- num) / den).

End Js.

(** ** The embed lifecycle controller: [class GameEmbedHandler] *)

Module GameEmbedHandler.

(** *** The page the controller lives in *)

(** The [#gameFrame] element: its [src] and the two classes the controller
    toggles. *)
Record IframeEl := mkIframe {
  src : string;
  cls_loading : bool;
  cls_loaded : bool;
}.

(** What [#loadingOverlay]'s [innerHTML] currently shows.  Each template of
    the source is one constructor; its arguments are the interpolated
    holes. *)
Inductive OverlayContent :=
| PageMarkup
| LoadingContent
| RetryContent (attempt limit : Z)
| ErrorContent (message : string).

Record OverlayEl := mkOverlay {
  hidden : bool;
  content : OverlayContent;
}.

(** A node appended to [document.body]. *)
Inductive Modal :=
| CompletionModal (ending finalScore : string).

(** The functions handed to [setTimeout]. *)
Inductive Callback :=
| CbLoadTimeout                     (* startLoadTimeout, loadTimeoutDuration *)
| CbLoadSettled                     (* onIframeLoad, 1000 ms *)
| CbAutoHideStatus                  (* onGameLoadSuccess, 3000 ms *)
| CbRetryReload                     (* retryLoad, 2000 ms *)
| CbRetryRestore (currentSrc : string) (* retryLoad, inner, 100 ms *)
| CbHideOverlay                     (* hideLoadingOverlay, 500 ms *)
| CbRemoveCompletion (node : positive). (* showGameComplete, 30000 ms *)

#[global] Instance Callback_eq_dec : EqDecision Callback.
Proof. solve_decision. Defined.

(** Everything the page observes of the controller. *)
Inductive Effect :=
| ConsoleError (text : string) (arg : Js.value)
| ConsoleLog (text : string)
| ConsoleLogValue (text : string) (arg : Js.value)
| ConsoleLogExn (text : string) (e : Js.exn)
| TrackEvent (category action : string) (label : Js.value)
| UpdateStatus (message kind : string)
| Uncaught (e : Js.exn).

(** The fields of [this]. *)
Record Handler := mkHandler {
  iframe : option IframeEl;
  loadingOverlay : option OverlayEl;
  gameLoaded : bool;
  retryCount : Z;
  maxRetries : Z;
  loadTimeout : option positive;
  loadTimeoutDuration : Z;
}.

(** The browser's side: registered listeners, pending timers (handle to
    delay and callback; handles are positive integers), queued
    MutationObserver records for [src], the status bar's [display: none],
    the modals under [document.body] and the log of effects. *)
Record Browser := mkBrowser {
  listening : bool;
  timers : gmap positive (Z * Callback);
  next_timer : positive;
  src_records : nat;
  statusBar : option bool;
  body : list (positive * Modal);
  next_node : positive;
  log : list Effect;
}.

Record World := mkWorld {
  this : Handler;
  page : Browser;
}.

(** [window.loveMoneyApp]: the status display and analytics collaborator.
    The controller sees it only through two calls; each may throw, as a
    function of what has been observed so far and of the arguments. *)
Record Collaborator := mkCollaborator {
  trackEvent_fault : list Effect -> string -> string -> Js.value -> option Js.exn;
  updateStatus_fault : list Effect -> string -> string -> option Js.exn;
}.

(** What the controller reads of its surroundings and does not own. *)
Record Env := mkEnv {
  loveMoneyApp : option Collaborator;
  JSON_parse : string -> option Js.value;     (* [None]: SyntaxError *)
  contentDocument_readable : bool;
}.

(** The elements [init] and the callbacks look up by id, as the page's
    markup has them: the frame, the overlay (with or without the class
    [hidden]) and the status bar (with or without [display: none]). *)
Record Document := mkDocument {
  gameFrame : option IframeEl;
  loadingOverlayEl : option bool;
  statusBarEl : option bool;
}.

(** *** Handlers run in a state monad with exceptions: a [throw] keeps the
    mutations made before it. *)

Inductive completion (A : Type) :=
| Normal (a : A)
| Abrupt (e : Js.exn).
Arguments Normal {A} a.
Arguments Abrupt {A} e.

Definition M (A : Type) : Type := World -> completion A * World.

#[global] Instance M_ret : MRet M := fun A a w => (Normal a, w).

#[global] Instance M_bind : MBind M := fun A B k m w =>
  match m w with
  | (Normal a, w') => k a w'
  | (Abrupt e, w') => (Abrupt e, w')
  end.

Definition throw {A} (e : Js.exn) : M A := fun w => (Abrupt e, w).

Definition try_catch {A} (m : M A) (handler : Js.exn -> M A) : M A := fun w =>
  match m w with
  | (Normal a, w') => (Normal a, w')
  | (Abrupt e, w') => handler e w'
  end.

Definition gets {A} (f : World -> A) : M A := fun w => (Normal (f w), w).

Definition modify (f : World -> World) : M unit := fun w => (Normal tt, f w).

Definition with_this (f : Handler -> Handler) (w : World) : World :=
  mkWorld (f (this w)) (page w).

Definition with_page (f : Browser -> Browser) (w : World) : World :=
  mkWorld (this w) (f (page w)).

(** Field updates. *)
Definition set_iframe v h :=
  mkHandler v (loadingOverlay h) (gameLoaded h) (retryCount h) (maxRetries h)
            (loadTimeout h) (loadTimeoutDuration h).
Definition set_loadingOverlay v h :=
  mkHandler (iframe h) v (gameLoaded h) (retryCount h) (maxRetries h)
            (loadTimeout h) (loadTimeoutDuration h).
Definition set_gameLoaded v h :=
  mkHandler (iframe h) (loadingOverlay h) v (retryCount h) (maxRetries h)
            (loadTimeout h) (loadTimeoutDuration h).
Definition set_retryCount v h :=
  mkHandler (iframe h) (loadingOverlay h) (gameLoaded h) v (maxRetries h)
            (loadTimeout h) (loadTimeoutDuration h).
Definition set_loadTimeout v h :=
  mkHandler (iframe h) (loadingOverlay h) (gameLoaded h) (retryCount h)
            (maxRetries h) v (loadTimeoutDuration h).

Definition set_listening v b :=
  mkBrowser v (timers b) (next_timer b) (src_records b) (statusBar b) (body b)
            (next_node b) (log b).
Definition set_timers v b :=
  mkBrowser (listening b) v (next_timer b) (src_records b) (statusBar b)
            (body b) (next_node b) (log b).
Definition set_next_timer v b :=
  mkBrowser (listening b) (timers b) v (src_records b) (statusBar b) (body b)
            (next_node b) (log b).
Definition set_src_records v b :=
  mkBrowser (listening b) (timers b) (next_timer b) v (statusBar b) (body b)
            (next_node b) (log b).
Definition set_statusBar v b :=
  mkBrowser (listening b) (timers b) (next_timer b) (src_records b) v (body b)
            (next_node b) (log b).
Definition set_body v b :=
  mkBrowser (listening b) (timers b) (next_timer b) (src_records b)
            (statusBar b) v (next_node b) (log b).
Definition set_next_node v b :=
  mkBrowser (listening b) (timers b) (next_timer b) (src_records b)
            (statusBar b) (body b) v (log b).
Definition set_log v b :=
  mkBrowser (listening b) (timers b) (next_timer b) (src_records b)
            (statusBar b) (body b) (next_node b) v.

(** *** Browser primitives *)

Definition emit (e : Effect) : M unit :=
  modify (with_page (fun b => set_log (log b ++ [e]) b)).

Definition setTimeout (cb : Callback) (delay : Z) : M positive := fun w =>
  let id := next_timer (page w) in
  (Normal id,
   with_page (fun b => set_next_timer (Pos.succ id)
                         (set_timers (<[id := (delay, cb)]> (timers b)) b)) w).

Definition clearTimeout (id : positive) : M unit :=
  modify (with_page (fun b => set_timers (delete id (timers b)) b)).

(** [this.iframe.src = s]: the attribute write also queues a record for the
    MutationObserver that [setupIframeListeners] registered. *)
Definition write_src (s : string) : M unit :=
  fr ← gets (fun w => iframe (this w));
  match fr with
  | None => throw (Js.TypeError "Cannot set properties of null")
  | Some el =>
      modify (with_this (set_iframe
                (Some (mkIframe s (cls_loading el) (cls_loaded el)))));;
      modify (with_page (fun b =>
                if listening b then set_src_records (S (src_records b)) b
                else b))
  end.

Definition trackEvent (app : Collaborator) (category action : string)
    (label : Js.value) : M unit :=
  seen ← gets (fun w => log (page w));
  emit (TrackEvent category action label);;
  match trackEvent_fault app seen category action label with
  | Some e => throw e
  | None => mret tt
  end.

Definition updateStatus (app : Collaborator) (message kind : string) : M unit :=
  seen ← gets (fun w => log (page w));
  emit (UpdateStatus message kind);;
  match updateStatus_fault app seen message kind with
  | Some e => throw e
  | None => mret tt
  end.

(** *** The methods of the class *)

Section Methods.
Context (env : Env).

(** [if (window.loveMoneyApp) { ... }] *)
Definition if_app (f : Collaborator -> M unit) : M unit :=
  match loveMoneyApp env with
  | Some app => f app
  | None => mret tt
  end.

Definition setupIframeListeners : M unit :=
  modify (with_page (set_listening true)).

Definition clearLoadTimeout : M unit :=
  lt ← gets (fun w => loadTimeout (this w));
  match lt with
  | Some id =>
      clearTimeout id;;
      modify (with_this (set_loadTimeout None))
  | None => mret tt
  end.

Definition startLoadTimeout : M unit :=
  clearLoadTimeout;;
  d ← gets (fun w => loadTimeoutDuration (this w));
  id ← setTimeout CbLoadTimeout d;
  modify (with_this (set_loadTimeout (Some id))).

Definition showLoadingState : M unit :=
  ov ← gets (fun w => loadingOverlay (this w));
  (if ov is Some _ then
     modify (with_this (set_loadingOverlay
               (Some (mkOverlay false LoadingContent))))
   else mret tt);;
  fr ← gets (fun w => iframe (this w));
  match fr with
  | Some el => modify (with_this (set_iframe (Some (mkIframe (src el) true false))))
  | None => mret tt
  end;;
  if_app (fun app => updateStatus app "🔄 Loading game..." "loading").

Definition showRetryState : M unit :=
  rc ← gets (fun w => retryCount (this w));
  mx ← gets (fun w => maxRetries (this w));
  ov ← gets (fun w => loadingOverlay (this w));
  (if ov is Some _ then
     modify (with_this (set_loadingOverlay
               (Some (mkOverlay false (RetryContent rc mx)))))
   else mret tt);;
  if_app (fun app =>
    updateStatus app
      ("🔄 Retrying... (" +:+ pretty rc +:+ "/" +:+ pretty mx +:+ ")")
      "loading").

Definition showGameError (errorMessage : Js.value) : M unit :=
  ov ← gets (fun w => loadingOverlay (this w));
  (if ov is Some _ then
     modify (with_this (set_loadingOverlay
       (Some (mkOverlay false
          (ErrorContent
             (Js.to_string
                (Js.or_else errorMessage
                   (Js.Str "Unable to load the LoveMoney game. Please check your internet connection and try again."))))))))
   else mret tt);;
  if_app (fun app => updateStatus app "❌ Failed to load game" "error").

Definition showGameLoaded : M unit :=
  fr ← gets (fun w => iframe (this w));
  match fr with
  | Some el => modify (with_this (set_iframe (Some (mkIframe (src el) false true))))
  | None => mret tt
  end.

Definition hideLoadingOverlay : M unit :=
  ov ← gets (fun w => loadingOverlay (this w));
  if ov is Some _ then setTimeout CbHideOverlay 500;; mret tt else mret tt.

(** [`Retrying game load (${this.retryCount}/${this.maxRetries})`] *)
Definition retry_message (attempt limit : Z) : string :=
  "Retrying game load (" +:+ pretty attempt +:+ "/" +:+ pretty limit +:+ ")".

Definition retryLoad : M unit :=
  modify (with_this (fun h => set_retryCount (retryCount h + 1) h));;
  rc ← gets (fun w => retryCount (this w));
  mx ← gets (fun w => maxRetries (this w));
  emit (ConsoleLog (retry_message rc mx));;
  showRetryState;;
  setTimeout CbRetryReload 2000;;
  mret tt.

Definition onGameLoadSuccess : M unit :=
  loaded ← gets (fun w => gameLoaded (this w));
  if (loaded : bool) then mret tt
  else
    modify (with_this (set_gameLoaded true));;
    modify (with_this (set_retryCount 0));;
    hideLoadingOverlay;;
    showGameLoaded;;
    if_app (fun app =>
      trackEvent app "Game" "load_success" Js.Undefined;;
      updateStatus app "✅ Game loaded successfully!" "success");;
    setTimeout CbAutoHideStatus 3000;;
    mret tt.

Definition onGameLoadError (errorMessage : Js.value) : M unit :=
  emit (ConsoleError "Game load error:" errorMessage);;
  rc ← gets (fun w => retryCount (this w));
  mx ← gets (fun w => maxRetries (this w));
  (if rc <? mx then retryLoad else showGameError errorMessage);;
  if_app (fun app => trackEvent app "Game" "load_error" errorMessage).

Definition onIframeLoad : M unit :=
  clearLoadTimeout;;
  setTimeout CbLoadSettled 1000;;
  mret tt.

Definition onIframeError : M unit :=
  clearLoadTimeout;;
  onGameLoadError (Js.Str "Iframe failed to load").

Definition onLoadTimeout : M unit :=
  onGameLoadError (Js.Str "Game loading timed out").

Definition onSrcChange : M unit :=
  modify (with_this (set_gameLoaded false));;
  modify (with_this (set_retryCount 0));;
  showLoadingState;;
  startLoadTimeout.

Definition forceReload (now : Z) : M unit :=
  modify (with_this (set_retryCount 0));;
  modify (with_this (set_gameLoaded false));;
  showLoadingState;;
  fr ← gets (fun w => iframe (this w));
  (if fr is Some _ then
     write_src ("https://lovemoneygame.io/lovemoney.embed" +:+ "?t=" +:+ pretty now);;
     startLoadTimeout
   else mret tt);;
  if_app (fun app => trackEvent app "Game" "force_reload" Js.Undefined).

Definition isIframeContentAccessible : M bool :=
  fr ← gets (fun w => iframe (this w));
  mret (if fr is Some _ then contentDocument_readable env else false).

(** [data.key] inside a handler. *)
Definition prop (data : Js.value) (key : string) : M Js.value :=
  match Js.get data key with
  | inl e => throw e
  | inr v => mret v
  end.

Definition handleGameProgress (data : Js.value) : M unit :=
  if_app (fun app =>
    stage ← prop data "stage";
    trackEvent app "Game" "progress" stage).

Definition showGameComplete (data : Js.value) : M unit :=
  ending ← prop data "ending";
  finalScore ← prop data "finalScore";
  node ← gets (fun w => next_node (page w));
  modify (with_page (fun b =>
    set_next_node (Pos.succ node)
      (set_body (body b ++
         [(node, CompletionModal
                   (Js.to_string (Js.or_else ending (Js.Str "Unknown")))
                   (Js.to_string (Js.or_else finalScore (Js.Str "N/A"))))]) b)));;
  setTimeout (CbRemoveCompletion node) 30000;;
  mret tt.

Definition handleGameComplete (data : Js.value) : M unit :=
  if_app (fun app =>
    ending ← prop data "ending";
    trackEvent app "Game" "complete" ending);;
  showGameComplete data.

(** [case '...':] of a [switch]: strict equality with a string literal. *)
Definition is_case (v : Js.value) (literal : string) : bool :=
  match v with
  | Js.Str s => String.eqb s literal
  | _ => false
  end.

Definition handleIframeMessage (origin : string) (event_data : Js.value) : M unit :=
  if negb (String.eqb origin "https://lovemoneygame.io") then mret tt
  else
    try_catch
      (data ← match event_data with
              | Js.Str text =>
                  match JSON_parse env text with
                  | Some v => mret v
                  | None => throw (Js.SyntaxError "JSON.parse")
                  end
              | _ => mret event_data
              end;
       type ← prop data "type";
       if is_case type "gameLoaded" then onGameLoadSuccess
       else if is_case type "gameError" then
         message ← prop data "message";
         onGameLoadError message
       else if is_case type "gameProgress" then handleGameProgress data
       else if is_case type "gameComplete" then handleGameComplete data
       else emit (ConsoleLogValue "Unknown message from game:" data))
      (fun e => emit (ConsoleLogExn "Error parsing message from game:" e)).

Definition init (doc : Document) : M unit :=
  modify (with_this (set_iframe (gameFrame doc)));;
  modify (with_this (set_loadingOverlay
            (option_map (fun hid => mkOverlay hid PageMarkup) (loadingOverlayEl doc))));;
  fr ← gets (fun w => iframe (this w));
  if fr is Some _ then
    setupIframeListeners;;
    startLoadTimeout
  else mret tt.

(** *** What the browser calls back *)

(** The body of each function handed to [setTimeout]. *)
Definition run_callback (cb : Callback) : M unit :=
  match cb with
  | CbLoadTimeout =>
      loaded ← gets (fun w => gameLoaded (this w));
      if (loaded : bool) then mret tt else onLoadTimeout
  | CbLoadSettled =>
      accessible ← isIframeContentAccessible;
      if (accessible : bool) then onGameLoadSuccess
      else onGameLoadSuccess   (* not accessible, but loaded: assume success *)
  | CbAutoHideStatus =>
      modify (with_page (fun b =>
        if statusBar b is Some _ then set_statusBar (Some true) b else b))
  | CbRetryReload =>
      fr ← gets (fun w => iframe (this w));
      match fr with
      | Some el =>
          write_src "";;
          setTimeout (CbRetryRestore (src el)) 100;;
          mret tt
      | None => mret tt
      end
  | CbRetryRestore currentSrc =>
      write_src currentSrc;;
      startLoadTimeout
  | CbHideOverlay =>
      ov ← gets (fun w => loadingOverlay (this w));
      match ov with
      | Some o => modify (with_this (set_loadingOverlay
                            (Some (mkOverlay true (content o)))))
      | None => throw (Js.TypeError "Cannot read properties of null")
      end
  | CbRemoveCompletion node =>
      modify (with_page (fun b =>
        set_body (List.filter (fun nm => negb (Pos.eqb (fst nm) node)) (body b)) b))
  end.

(** What reaches the controller from outside. *)
Inductive Event :=
| IframeLoad
| IframeError
| Message (origin : string) (data : Js.value)
| TimerFired (id : positive)
| ForceReloadClicked (now : Z)
| SrcWritten (s : string).     (* another script assigns [iframe.src] *)

(** The listeners exist only once [setupIframeListeners] has run; a timer
    runs once; [forceReload] is reached through the global
    [window.gameEmbedHandler]. *)
Definition dispatch (ev : Event) : M unit :=
  match ev with
  | IframeLoad =>
      on ← gets (fun w => listening (page w));
      if (on : bool) then onIframeLoad else mret tt
  | IframeError =>
      on ← gets (fun w => listening (page w));
      if (on : bool) then onIframeError else mret tt
  | Message origin data =>
      on ← gets (fun w => listening (page w));
      if (on : bool) then handleIframeMessage origin data else mret tt
  | TimerFired id =>
      pending ← gets (fun w => timers (page w) !! id);
      match pending with
      | Some (_, cb) => clearTimeout id;; run_callback cb
      | None => mret tt
      end
  | ForceReloadClicked now => forceReload now
  | SrcWritten s =>
      fr ← gets (fun w => iframe (this w));
      if fr is Some _ then write_src s else mret tt
  end.

(** [mutations.forEach(...)]: one [onSrcChange] per queued record. *)
Fixpoint forEach_record (n : nat) : M unit :=
  match n with
  | O => mret tt
  | S n' => onSrcChange;; forEach_record n'
  end.

Definition observer_callback : M unit :=
  n ← gets (fun w => src_records (page w));
  modify (with_page (set_src_records 0));;
  forEach_record n.

(** An exception that leaves a callback reaches the page's error reporting. *)
Definition report (m : M unit) : M unit :=
  try_catch m (fun e => emit (Uncaught e)).

(** One turn of the event loop: the callback, then the microtask in which
    the MutationObserver delivers its records. *)
Definition task (m : M unit) (w : World) : World :=
  snd ((report m;; report observer_callback) w).

Definition deliver (ev : Event) (w : World) : World :=
  task (dispatch ev) w.

Definition run (evs : list Event) (w : World) : World :=
  fold_left (fun w ev => deliver ev w) evs w.

(** [new GameEmbedHandler()] on a page with the given elements. *)
Definition constructor (doc : Document) : World :=
  snd (init doc
         (mkWorld (mkHandler None None false 0 3 None 30000)
                  (mkBrowser false ∅ 1%positive 0%nat (statusBarEl doc) [] 1%positive []))).

(** The states the page can be in: a fresh controller, then any events. *)
Inductive reachable : World -> Prop :=
| reachable_new doc : reachable (constructor doc)
| reachable_deliver w ev : reachable w -> reachable (deliver ev w).

(** *** The signals of the load lifecycle *)

Definition allowed_origin : string := "https://lovemoneygame.io".

(** The handlers a failure of the embed ends in, called on their own: that
    of the iframe's [error] event, the closure of the bounded wait (without
    the timer's bookkeeping, which [dispatch] does), and the message handler
    on a [gameError] message. *)
Inductive Failure :=
| NativeError
| WaitExpired
| EmbedError (message : Js.value).

Definition on_failure (f : Failure) : M unit :=
  match f with
  | NativeError => onIframeError
  | WaitExpired => run_callback CbLoadTimeout
  | EmbedError message =>
      handleIframeMessage allowed_origin
        (Js.Obj [("type", Js.Str "gameError"); ("message", message)])
  end.

Definition fail_all (fs : list Failure) (w : World) : World :=
  fold_left (fun w f => task (on_failure f) w) fs w.

(** The handlers a success signal ends in, called on their own: the
    [load] handler followed by the closure of the settle delay, or the
    message handler on a [gameLoaded] message. *)
Inductive Success :=
| NativeLoad
| EmbedLoaded.

Definition succeed (s : Success) (w : World) : World :=
  match s with
  | NativeLoad => task (run_callback CbLoadSettled) (task onIframeLoad w)
  | EmbedLoaded =>
      task (handleIframeMessage allowed_origin
              (Js.Obj [("type", Js.Str "gameLoaded")])) w
  end.

(** *** Observations *)

(** The pending timers that are bounded waits for the load signal. *)
Definition load_timers (w : World) : gmap positive (Z * Callback) :=
  filter (fun entry => snd (snd entry) = CbLoadTimeout) (timers (page w)).

(** The overlay shows the terminal error display. *)
Definition failed (w : World) : bool :=
  match loadingOverlay (this w) with
  | Some o => match content o with
              | ErrorContent _ => true
              | _ => false
              end
  | None => false
  end.

Definition is_success_status (e : Effect) : bool :=
  match e with
  | UpdateStatus _ kind => String.eqb kind "success"
  | _ => false
  end.

Definition is_collaborator_call (e : Effect) : bool :=
  match e with
  | UpdateStatus _ _ | TrackEvent _ _ _ => true
  | _ => false
  end.

End Methods.

(** The [console.log] lines of plain text: [retryLoad] writes the only ones. *)
Definition is_console_log (e : Effect) : bool :=
  match e with
  | ConsoleLog _ => true
  | _ => false
  end.

Definition console_logs (w : World) : list Effect :=
  List.filter is_console_log (log (page w)).

(** The overlay's current content, when the page has an overlay. *)
Definition shown (w : World) : option OverlayContent :=
  option_map content (loadingOverlay (this w)).

Definition success_statuses (w : World) : list Effect :=
  List.filter is_success_status (log (page w)).

(** A collaborator whose calls return normally. *)
Definition quiet (app : Collaborator) : Prop :=
  (forall seen category action label,
      trackEvent_fault app seen category action label = None)
  /\ (forall seen message kind, updateStatus_fault app seen message kind = None).

Definition calm (env : Env) : Prop :=
  forall app, loveMoneyApp env = Some app -> quiet app.

(** *** Invariants *)

(** [m] keeps [I], whether it returns or throws. *)
Definition preserves (I : World -> Prop) {A : Type} (m : M A) : Prop :=
  forall w, I w -> I (snd (m w)).

(** A state change that leaves the timers, the stored handle and the retry
    counter alone. *)
Definition keeps (f : World -> World) : Prop :=
  forall w, timers (page (f w)) = timers (page w)
            /\ next_timer (page (f w)) = next_timer (page w)
            /\ loadTimeout (this (f w)) = loadTimeout (this w)
            /\ retryCount (this (f w)) = retryCount (this w)
            /\ maxRetries (this (f w)) = maxRetries (this w).

(** What an invariant must grant for every handler to keep it: the steps
    that touch the timers or the counter, each as the code takes it. *)
Record stable (I : World -> Prop) : Prop := mkStable {
  stable_keeps f : keeps f -> forall w, I w -> I (f w);
  stable_setTimeout cb d : cb <> CbLoadTimeout -> preserves I (setTimeout cb d);
  stable_clearTimeout id : preserves I (clearTimeout id);
  stable_clearLoadTimeout : preserves I clearLoadTimeout;
  stable_startLoadTimeout : preserves I startLoadTimeout;
  stable_reset : preserves I (modify (with_this (set_retryCount 0)));
  stable_retry w :
    I w -> retryCount (this w) < maxRetries (this w) ->
    I (with_this (fun h => set_retryCount (retryCount h + 1) h) w);
}.

(** Handles in use are below the next one to be issued, and a pending
    bounded wait is the one whose handle [this.loadTimeout] holds. *)
Definition timers_wf (w : World) : Prop :=
  (forall id entry, timers (page w) !! id = Some entry ->
                    (id < next_timer (page w))%positive)
  /\ (forall id d, timers (page w) !! id = Some (d, CbLoadTimeout) ->
                   loadTimeout (this w) = Some id).

Definition retry_bounded (w : World) : Prop :=
  maxRetries (this w) = 3 /\ 0 <= retryCount (this w) <= 3.

(** *** A page to run on *)

Definition silent_app : Collaborator :=
  mkCollaborator (fun _ _ _ _ => None) (fun _ _ _ => None).


Definition sample_env : Env := mkEnv (Some silent_app) (fun _ => None) false.


Definition sample_doc : Document :=
  mkDocument (Some (mkIframe "https://lovemoneygame.io/lovemoney.embed" true false))
             (Some false) (Some false).

(** The payload of the completion scenario, under a given tag. *)
Definition completion_payload (tag : string) : Js.value :=
  Js.Obj [("type", Js.Str tag); ("ending", Js.Str "High Morality");
          ("finalScore", Js.Num 25000)].

(** *** Further observations *)

(** One retry driven by the clock alone: the bounded wait expires, then
    the reload timer the retry armed fires (the next handle), then the
    restore timer the reload armed (the handle after it). *)
Definition retry_cycle (env : Env) (w : World) : World :=
  match loadTimeout (this w) with
  | Some wait =>
      let reload := next_timer (page w) in
      run env [TimerFired wait; TimerFired reload; TimerFired (Pos.succ reload)] w
  | None => w
  end.

(** The controller waits for the embed at [embed] as it does after [init]:
    listening, not loaded, the counter at 0, the bounded wait pending and no
    error on display. *)
Definition waiting (embed : string) (w : World) : Prop :=
  listening (page w) = true
  /\ src_records (page w) = 0%nat
  /\ gameLoaded (this w) = false
  /\ retryCount (this w) = 0
  /\ maxRetries (this w) = 3
  /\ (exists el, iframe (this w) = Some el /\ src el = embed)
  /\ (exists wait d, loadTimeout (this w) = Some wait
                     /\ timers (page w) !! wait = Some (d, CbLoadTimeout))
  /\ failed w = false
  /\ timers_wf w.

(** What the message handler decodes from [event.data]. *)
Definition decoded (env : Env) (event_data : Js.value) : option Js.value :=
  match event_data with
  | Js.Str text => JSON_parse env text
  | _ => Some event_data
  end.

(** The state with one more entry in the page's log. *)
Definition log_line (e : Effect) (w : World) : World :=
  with_page (fun b => set_log (log b ++ [e]) b) w.

(** The state once a timer has run and left the table. *)
Definition drop_timer (id : positive) (w : World) : World :=
  with_page (fun b => set_timers (delete id (timers b)) b) w.






End GameEmbedHandler.

(** ** The compatibility scorer: [class CompatibilityTester] *)

Module CompatibilityTester.

(** What the scorer reads of an entry of [this.results]. *)
Record TestResult := mkTestResult {
  supported : bool;
}.

(** [const weights = { browser: 30, ... }], in insertion order. *)
Definition weights : list (string * Z) :=
  [("browser", 30); ("iframe", 25); ("webgl", 15); ("localStorage", 10);
   ("canvas", 10); ("fullscreen", 5); ("serviceWorker", 5)].

(** [weights.browser] *)
Definition weight_of (feature : string) : Z :=
  match List.find (fun fw => String.eqb (fst fw) feature) weights with
  | Some fw => snd fw
  | None => 0
  end.

(** [this.results[feature]?.supported] as a condition. *)
Definition is_supported (results : gmap string TestResult) (feature : string) : bool :=
  match results !! feature with
  | Some r => supported r
  | None => false
  end.

(** The [forEach] over [Object.entries(weights)]: the pair is
    [(score, maxScore)]. *)
Definition tally (results : gmap string TestResult) : Z * Z :=
  fold_left
    (fun acc fw =>
       let maxScore := snd acc + snd fw in
       if is_supported results (fst fw) then (fst acc + snd fw, maxScore)
       else (fst acc, maxScore))
    weights (0, 0).

(** What a feature adds in the loop. *)
Definition points (results : gmap string TestResult) (fw : string * Z) : Z :=
  if is_supported results (fst fw) then snd fw else 0.

(** [Math.round((score / maxScore) * 100)].  [score] is an integer between
    0 and 130 and [maxScore] is 100, so the double the source rounds is
    within 1e-12 of the exact quotient, which is an integer multiple of
    1/100 of the weights' sum; the rounding is modelled on the exact
    quotient. *)
Definition calculateCompatibilityScore (results : gmap string TestResult) : Z :=
  let score := fst (tally results) in
  let maxScore := snd (tally results) in
  let score :=
    if is_supported results "browser" then score + weight_of "browser"
    else score in
  Js.round_div (score * 100) maxScore.

(** Every test reports support. *)
Definition all_supported : gmap string TestResult :=
  list_to_map (List.map (fun fw => (fst fw, mkTestResult true)) weights).

(** *** The report *)

(** [this.results.browser], as [detectBrowser] returns it. *)
Record BrowserInfo := mkBrowserInfo {
  browser_name : string;
  browser_version : Js.value;
  browser_supported : bool;
}.

(** What the report reads of [this.results]: the browser entry, the
    feature tests and [performance.score]. *)
Record Results := mkResults {
  browser : option BrowserInfo;
  features : gmap string TestResult;
  performance_score : option string;
}.

(** The entries as the scorer looks them up: [browser] beside the feature
    tests. *)
Definition entries (r : Results) : gmap string TestResult :=
  match browser r with
  | Some b => <["browser" := mkTestResult (browser_supported b)]> (features r)
  | None => delete "browser" (features r)
  end.

(** An entry of [recommendations]. *)
Record Recommendation := mkRecommendation {
  rec_type : string;
  rec_message : string;
  rec_action : option string;
}.

(** The entries [generateRecommendations] can push. *)
Definition update_browser (b : BrowserInfo) : Recommendation :=
  mkRecommendation "critical"
    ("Update your browser. " +:+ browser_name b +:+ " "
     +:+ Js.to_string (browser_version b) +:+ " is not fully supported.")
    (Some "Update browser").

Definition iframe_required : Recommendation :=
  mkRecommendation "critical" "Iframe support is required for the game to work."
    (Some "Enable iframes or use a different browser").

Definition webgl_missing : Recommendation :=
  mkRecommendation "warning" "WebGL not supported. Game graphics may be limited."
    (Some "Enable hardware acceleration").

Definition storage_missing : Recommendation :=
  mkRecommendation "warning" "Local storage not available. Settings won't be saved."
    (Some "Enable cookies and local storage").

Definition performance_limited : Recommendation :=
  mkRecommendation "info" "Performance may be limited on this device."
    (Some "Close other tabs or applications").

Definition fully_compatible : Recommendation :=
  mkRecommendation "success" "Your browser is fully compatible with LoveMoney!" None.

(** [if (!this.results[feature]?.supported) recommendations.push(...)] *)
Definition unless_supported (r : Results) (feature : string)
    (rec : Recommendation) (recommendations : list Recommendation)
    : list Recommendation :=
  if is_supported (entries r) feature then recommendations
  else recommendations ++ [rec].

(** [generateRecommendations]: reading [this.results.browser.name] throws
    when there is no browser entry. *)
Definition generateRecommendations (r : Results)
    : Js.exn + list Recommendation :=
  match
    (if is_supported (entries r) "browser" then inr []
     else match browser r with
          | Some b => inr [update_browser b]
          | None => inl (Js.TypeError "Cannot read properties of undefined")
          end)
  with
  | inl e => inl e
  | inr recommendations =>
      let recommendations := unless_supported r "iframe" iframe_required recommendations in
      let recommendations := unless_supported r "webgl" webgl_missing recommendations in
      let recommendations :=
        unless_supported r "localStorage" storage_missing recommendations in
      let recommendations :=
        if bool_decide (performance_score r = Some "poor")
        then recommendations ++ [performance_limited] else recommendations in
      inr (if (length recommendations =? 0)%nat
           then recommendations ++ [fully_compatible] else recommendations)
  end.

(** The status and message [displayResults] derives from the score. *)
Definition rating (score : Z) : string * string :=
  if 90 <=? score then
    ("success", "✅ Excellent compatibility (" +:+ pretty score +:+ "%)")
  else if 70 <=? score then
    ("success", "✅ Good compatibility (" +:+ pretty score +:+ "%)")
  else if 50 <=? score then
    ("warning", "⚠️ Limited compatibility (" +:+ pretty score +:+ "%)")
  else
    ("error", "❌ Poor compatibility (" +:+ pretty score +:+ "%)").

(** The calls [displayResults] makes, in order. *)
Inductive Shown :=
| StatusShown (message status : string)
| CriticalIssuesShown (issues : list Recommendation)
| IndicatorAdded (score : Z) (status : string).

(** [r => r.type === 'critical'] *)
Definition is_critical (rec : Recommendation) : bool :=
  String.eqb (rec_type rec) "critical".

(** [displayResults], as the calls it makes when each of them returns. *)
Definition displayResults (score : Z)
    (recommendations : option (list Recommendation)) : list Shown :=
  let status := fst (rating score) in
  let message := snd (rating score) in
  [StatusShown message status]
  ++ match recommendations with
     | Some recs =>
         let criticalIssues := List.filter is_critical recs in
         if (0 <? length criticalIssues)%nat
         then [CriticalIssuesShown criticalIssues] else []
     | None => []
     end
  ++ [IndicatorAdded score status].

(** The end of [runCompatibilityTests]: score, recommendations, display. *)
Definition report_results (r : Results) : Js.exn + list Shown :=
  let score := calculateCompatibilityScore (entries r) in
  match generateRecommendations r with
  | inl e => inl e
  | inr recommendations => inr (displayResults score (Some recommendations))
  end.

(** A current browser with what the game needs. *)
Definition capable_results : Results :=
  mkResults (Some (mkBrowserInfo "chrome" (Js.Num 120) true))
    (list_to_map [("iframe", mkTestResult true); ("webgl", mkTestResult true);
                  ("localStorage", mkTestResult true);
                  ("canvas", mkTestResult true)])
    (Some "good").

End CompatibilityTester.

(** ** The guide: [class GuideController] *)

Module GuideController.

(** *** The upgrade calculator *)

Record Upgrade := mkUpgrade {
  name : string;
  cost : Z;
  earnings : Z;
  moral : Z;
}.

(** The table [calculateUpgradePath] passes down. *)
Definition upgrades_table : list Upgrade :=
  [mkUpgrade "Basic Touch" 0 1 0;
   mkUpgrade "Pet" 100 2 (-5);
   mkUpgrade "Kiss" 500 5 (-10);
   mkUpgrade "Touch" 1500 15 (-20);
   mkUpgrade "Embrace" 3000 30 (-25);
   mkUpgrade "Caress" 6000 60 (-30);
   mkUpgrade "Special" 10000 100 (-40)].

(** [upgrades[i]]: [None] is [undefined]. *)
Definition at_index (upgrades : list Upgrade) (i : Z) : option Upgrade :=
  if i <? 0 then None else nth_error upgrades (Z.to_nat i).

Record PathStep := mkPathStep {
  upgrade : string;
  step_cost : Z;
  moralImpact : Z;
  newMoralScore : Z;
}.

Record SimResult := mkSimResult {
  success : bool;
  totalClicks : Z;
  finalMoral : Z;
  path : list PathStep;
  estimatedTime : Z;
  endingType : string;
}.

Definition getEndingType (moralScore : Z) : string :=
  if 60 <=? moralScore then "High Morality"
  else if 30 <=? moralScore then "Medium Morality"
  else "Low Morality".

(** The [let] variables of [simulateUpgradePath]. *)
Record Vars := mkVars {
  money : Z;
  currentUpgrade : Z;
  clicks : Z;
  moralScore : Z;
  steps : list PathStep;
}.

(** How a run of a loop body ends. *)
Inductive Flow :=
| Next (v : Vars)       (* falls through to the loop test *)
| Break (v : Vars)
| Raise (e : Js.exn).

(** [for (let i = 1; i <= currentUpgrade; i++) moralScore += upgrades[i].moral]
    [None]: the fuel ran out. *)
Fixpoint moral_penalty (fuel : nat) (upgrades : list Upgrade)
    (i currentUpgrade moralScore : Z) : option (Js.exn + Z) :=
  if i <=? currentUpgrade then
    match fuel with
    | O => None
    | S fuel' =>
        match at_index upgrades i with
        | None => Some (inl (Js.TypeError "Cannot read properties of undefined"))
        | Some u =>
            moral_penalty fuel' upgrades (i + 1) currentUpgrade (moralScore + moral u)
        end
    end
  else Some (inr moralScore).

(** The body of the [while]. *)
Definition loop_body (target maxUpgrade : Z) (upgrades : list Upgrade)
    (v : Vars) : Flow :=
  match at_index upgrades (currentUpgrade v) with
  | None => Raise (Js.TypeError "Cannot read properties of undefined")
  | Some cur =>
      let currentEarnings := earnings cur in
      if (currentUpgrade v <? maxUpgrade)
         && (currentUpgrade v <? Z.of_nat (length upgrades) - 1) then
        match at_index upgrades (currentUpgrade v + 1) with
        | None => Raise (Js.TypeError "Cannot read properties of undefined")
        | Some nextUpgrade =>
            let moneyNeeded := cost nextUpgrade - money v in
            let v1 :=
              if 0 <? moneyNeeded then
                let clicksNeeded := Js.ceil_div moneyNeeded currentEarnings in
                mkVars (money v + clicksNeeded * currentEarnings)
                       (currentUpgrade v) (clicks v + clicksNeeded)
                       (moralScore v) (steps v)
              else v in
            if cost nextUpgrade <=? money v1 then
              let moralScore' := moralScore v1 + moral nextUpgrade in
              Next (mkVars (money v1) (currentUpgrade v1 + 1) (clicks v1)
                      moralScore'
                      (steps v1 ++ [mkPathStep (name nextUpgrade) (cost nextUpgrade)
                                      (moral nextUpgrade) moralScore']))
            else Next v1
        end
      else
        let remainingMoney := target - money v in
        let finalClicks := Js.ceil_div remainingMoney currentEarnings in
        Break (mkVars target (currentUpgrade v) (clicks v + finalClicks)
                 (moralScore v) (steps v))
  end.

(** [while (money < target && currentUpgrade <= maxUpgrade) { ... }] *)
Fixpoint while_loop (fuel : nat) (target maxUpgrade : Z)
    (upgrades : list Upgrade) (v : Vars) : option (Js.exn + Vars) :=
  if (money v <? target) && (currentUpgrade v <=? maxUpgrade) then
    match fuel with
    | O => None
    | S fuel' =>
        match loop_body target maxUpgrade upgrades v with
        | Next v' => while_loop fuel' target maxUpgrade upgrades v'
        | Break v' => Some (inr v')
        | Raise e => Some (inl e)
        end
    end
  else Some (inr v).

Definition simulateUpgradePath (fuel : nat)
    (target startMoney startUpgrade maxUpgrade : Z) (upgrades : list Upgrade)
    : option (Js.exn + SimResult) :=
  match moral_penalty fuel upgrades 1 startUpgrade 100 with
  | None => None
  | Some (inl e) => Some (inl e)
  | Some (inr moralScore0) =>
      match while_loop fuel target maxUpgrade upgrades
              (mkVars startMoney startUpgrade 0 moralScore0 []) with
      | None => None
      | Some (inl e) => Some (inl e)
      | Some (inr v) =>
          Some (inr (mkSimResult (target <=? money v) (clicks v) (moralScore v)
                       (steps v) (Js.round_div (clicks v) 10)
                       (getEndingType (moralScore v))))
      end
  end.

(** The amounts the calculator's arithmetic is exact on.  The code computes
    with doubles, which hold every integer up to [2^53]; from amounts within
    [2^50] no difference, product or sum of a round leaves that range, and
    [Math.ceil] and [Math.round] of a quotient by one of the table's
    earnings, or by 10, give the integer the exact quotient rounds to. *)
Definition exact_amount (z : Z) : Prop := Z.abs z <= 2 ^ 50.

(** *** Search *)

Record IndexItem := mkIndexItem {
  id : string;
  title : string;
  content : string;
  keywords : list string;
}.

(** [{ ...item, score }] *)
Record SearchResult := mkSearchResult {
  item : IndexItem;
  score : Z;
}.

(** The score [searchContent] gives one item. *)
Definition item_score (query : string) (queryWords : list string)
    (it : IndexItem) : Z :=
  let score := if Js.includes (Js.toLowerCase (title it)) query then 10 else 0 in
  fold_left
    (fun score word =>
       let score := if existsb (String.eqb word) (keywords it) then score + 5 else score in
       let score := if Js.includes (Js.toLowerCase (title it)) word then score + 3 else score in
       if Js.includes (content it) word then score + 1 else score)
    queryWords score.

(** [(a, b) => b.score - a.score] *)
Definition by_score_desc (a b : SearchResult) : Z := score b - score a.

(** [results.sort(...)]: the sort is stable, so the result is that of a
    stable insertion sort under the same comparator. *)
Fixpoint insert_sorted (compare : SearchResult -> SearchResult -> Z)
    (x : SearchResult) (l : list SearchResult) : list SearchResult :=
  match l with
  | [] => [x]
  | y :: rest =>
      if compare x y <=? 0 then x :: y :: rest
      else y :: insert_sorted compare x rest
  end.

Definition sort (compare : SearchResult -> SearchResult -> Z)
    (l : list SearchResult) : list SearchResult :=
  fold_right (insert_sorted compare) [] l.

Definition searchContent (searchIndex : list IndexItem) (query : string)
    : list SearchResult :=
  let queryWords :=
    List.filter (fun word => (2 <? String.length word)%nat) (Js.split_space query) in
  let results :=
    fold_left
      (fun results it =>
         let score := item_score query queryWords it in
         if 0 <? score then results ++ [mkSearchResult it score] else results)
      searchIndex [] in
  firstn 8 (sort by_score_desc results).

(** *** The strategies, the index and the navigation *)

(** [for (let maxUpgrade = currentUpgrade; maxUpgrade < upgrades.length; ...)]
    of [calculateOptimalPath]: the array [paths] as it stands before it is
    sorted.  [fuel] bounds the rounds of this loop and [sim_fuel] those of
    each simulation; [None]: one of them ran out. *)
Fixpoint collect_paths (fuel sim_fuel : nat)
    (target current currentUpgrade maxUpgrade : Z)
    (upgrades : list Upgrade) (paths : list SimResult)
    : option (Js.exn + list SimResult) :=
  if maxUpgrade <? Z.of_nat (length upgrades) then
    match fuel with
    | O => None
    | S fuel' =>
        match simulateUpgradePath sim_fuel target current currentUpgrade
                maxUpgrade upgrades with
        | None => None
        | Some (inl e) => Some (inl e)
        | Some (inr path) =>
            collect_paths fuel' sim_fuel target current currentUpgrade
              (maxUpgrade + 1) upgrades (if success path then paths ++ [path] else paths)
        end
    end
  else Some (inr paths).

(** The moral score the calculator holds at an upgrade level: 100 and the
    [moral] of every upgrade bought so far. *)
Definition level_moral (level : Z) : Z :=
  fold_left (fun m u => m + moral u)
    (firstn (Z.to_nat level) (tl upgrades_table)) 100.

(** The entries [path] gains while going from one level to another. *)
Definition level_steps (from upto : Z) : list PathStep :=
  flat_map
    (fun k =>
       let level := from + 1 + Z.of_nat k in
       match at_index upgrades_table level with
       | Some u => [mkPathStep (name u) (cost u) (moral u) (level_moral level)]
       | None => []
       end)
    (seq 0 (Z.to_nat (upto - from))).

(** What every round of the [while] keeps. *)
Definition on_track (startMoney startUpgrade maxUpgrade : Z) (v : Vars) : Prop :=
  startUpgrade <= currentUpgrade v <= 6
  /\ currentUpgrade v <= maxUpgrade
  /\ moralScore v = level_moral (currentUpgrade v)
  /\ steps v = level_steps startUpgrade (currentUpgrade v)
  /\ ((money v = startMoney /\ clicks v = 0) \/ 0 < clicks v).

(** [query.split(' ').filter(word => word.length > 2)]; the length is
    counted in bytes, the code's UTF-16 units on ASCII text. *)
Definition query_words (query : string) : list string :=
  List.filter (fun word => (2 <? String.length word)%nat) (Js.split_space query).

(** The array [results] of [searchContent] as the [forEach] leaves it,
    before it is sorted and cut. *)
Definition matches (searchIndex : list IndexItem) (query : string)
    : list SearchResult :=
  fold_left
    (fun results it =>
       let score := item_score query (query_words query) it in
       if 0 <? score then results ++ [mkSearchResult it score] else results)
    searchIndex [].

(** Nine sections that all match a query for upgrades. *)
Definition nine_sections : list IndexItem :=
  List.map (fun n => mkIndexItem (pretty n) "Upgrade guide" "how to upgrade" ["upgrade"])
    [1; 2; 3; 4; 5; 6; 7; 8; 9].

(** [\w] *)
Definition is_word_char (c : ascii) : bool :=
  let n := nat_of_ascii c in
  ((48 <=? n) && (n <=? 57) || (65 <=? n) && (n <=? 90) || (n =? 95)
   || (97 <=? n) && (n <=? 122))%nat.

(** A run of word characters that has ended: a match of [\b\w{3,}\b] when
    it is long enough. *)
Definition close_run (cur : string) : list string :=
  if (3 <=? String.length cur)%nat then [cur] else [].

(** [text.match(/\b\w{3,}\b/g) || []]: between two word boundaries [\w{3,}]
    takes a whole maximal run of word characters, so the matches are the
    maximal runs of length at least 3, from left to right. *)
Fixpoint word_runs_aux (cur : string) (s : string) : list string :=
  match s with
  | EmptyString => close_run cur
  | String c rest =>
      if is_word_char c then word_runs_aux (cur +:+ String c "") rest
      else close_run cur ++ word_runs_aux "" rest
  end.

(** The matches in a whole text. *)
Definition word_runs (s : string) : list string := word_runs_aux "" s.

(** [const gameTerms = [...]] *)
Definition gameTerms : list string :=
  ["harvey"; "moral"; "upgrade"; "click"; "money"; "ending"; "strategy";
   "touch"; "pet"; "kiss"; "embrace"; "caress"; "special"; "score";
   "relationship"; "boundary"; "consent"; "ethics"; "choice"].

(** [[...new Set(keywords)]]: the first occurrences, in order. *)
Definition unique (l : list string) : list string :=
  fold_left
    (fun seen w => if existsb (String.eqb w) seen then seen else seen ++ [w])
    l [].

(** [extractKeywords(text)]: the words that are game terms or longer than
    five characters, lowercased, without repetition. *)
Definition extractKeywords (text : string) : list string :=
  let keywords :=
    fold_left
      (fun keywords word =>
         if existsb (String.eqb (Js.toLowerCase word)) gameTerms
            || (5 <? String.length word)%nat
         then keywords ++ [Js.toLowerCase word] else keywords)
      (word_runs text) [] in
  unique keywords.

(** What [setupSections] keeps of a [.guide-section] element. *)
Record GuideSection := mkSection {
  section_id : string;
  section_title : string;
  textContent : string;
}.

(** [buildSearchIndex]: one entry per section. *)
Definition buildSearchIndex (sections : list GuideSection) : list IndexItem :=
  List.map
    (fun section =>
       let content := Js.toLowerCase (textContent section) in
       mkIndexItem (section_id section) (section_title section) content
         (extractKeywords content))
    sections.

(** A section of the guide. *)
Definition sample_sections : list GuideSection :=
  [mkSection "upgrades" "Upgrade Strategy"
     "Buy the Pet upgrade first; Harvey notices every purchase."].

(** [this.sections.findIndex(s => s.id === this.currentSection)], over the
    ids of [this.sections]; [currentSection] is [None] while it is [null]. *)
Fixpoint findIndex_from (i : Z) (ids : list string) (currentSection : option string)
    : Z :=
  match ids with
  | [] => -1
  | id :: rest =>
      if bool_decide (Some id = currentSection) then i
      else findIndex_from (i + 1) rest currentSection
  end.

Definition findIndex (ids : list string) (currentSection : option string) : Z :=
  findIndex_from 0 ids currentSection.

(** The id [navigateToPreviousSection] hands to [scrollToSection], if any. *)
Definition navigateToPreviousSection (ids : list string)
    (currentSection : option string) : option string :=
  let currentIndex := findIndex ids currentSection in
  if 0 <? currentIndex then ids !! Z.to_nat (currentIndex - 1) else None.

(** The id [navigateToNextSection] hands to [scrollToSection], if any. *)
Definition navigateToNextSection (ids : list string)
    (currentSection : option string) : option string :=
  let currentIndex := findIndex ids currentSection in
  if currentIndex <? Z.of_nat (length ids) - 1
  then ids !! Z.to_nat (currentIndex + 1) else None.

(** Text of the ASCII range, on which the bytes of a string are its UTF-16
    units, so that [length] is [String.length], and on which [toLowerCase]
    changes the letters A to Z only. *)
Definition ascii_only (s : string) : bool :=
  forallb (fun c => (nat_of_ascii c <? 128)%nat) (list_ascii_of_string s).

(** *** The calculator on the numbers the code computes with

    [simulateUpgradePath] once more, with its amounts as IEEE 754 doubles:
    [target] and [startMoney] are what [parseInt] returned, [NaN] included.
    The levels stay integers: [currentUpgrade] is read from a selector
    whose options are the table's indices. *)
Module Doubles.

(** An integer as the double nearest to it (the integer itself up to
    [2^53]). *)
Definition of_Z (z : Z) : float :=
  if z <? 0 then PrimFloat.opp (PrimFloat.of_uint63 (Uint63.of_Z (- z)))
  else PrimFloat.of_uint63 (Uint63.of_Z z).

Definition two52 : float := 4503599627370496%float.

(** The integer nearest to [x], for [x] below [2^52] in magnitude (from
    there on every double is an integer). *)
Definition nearest (x : float) : float :=
  if PrimFloat.ltb x 0 then PrimFloat.add (PrimFloat.sub x two52) two52
  else PrimFloat.sub (PrimFloat.add x two52) two52.

(** [Math.ceil]; the sign of a zero result is not tracked. *)
Definition Math_ceil (x : float) : float :=
  if PrimFloat.ltb (PrimFloat.abs x) two52 then
    let r := nearest x in
    if PrimFloat.ltb r x then PrimFloat.add r 1 else r
  else x.

(** [Math.floor] *)
Definition Math_floor (x : float) : float :=
  if PrimFloat.ltb (PrimFloat.abs x) two52 then
    let r := nearest x in
    if PrimFloat.ltb x r then PrimFloat.sub r 1 else r
  else x.

(** [Math.round]: halves round up. *)
Definition Math_round (x : float) : float :=
  let r := Math_floor x in
  if PrimFloat.leb 0.5 (PrimFloat.sub x r) then PrimFloat.add r 1 else r.

Record Upgrade := mkUpgrade {
  name : string;
  cost : float;
  earnings : float;
  moral : float;
}.

(** The table [calculateUpgradePath] passes down. *)
Definition upgrades_table : list Upgrade :=
  [mkUpgrade "Basic Touch" 0 1 0;
   mkUpgrade "Pet" 100 2 (-5);
   mkUpgrade "Kiss" 500 5 (-10);
   mkUpgrade "Touch" 1500 15 (-20);
   mkUpgrade "Embrace" 3000 30 (-25);
   mkUpgrade "Caress" 6000 60 (-30);
   mkUpgrade "Special" 10000 100 (-40)].

(** [upgrades[i]] at an integer index: [None] is [undefined]. *)
Definition at_index (upgrades : list Upgrade) (i : Z) : option Upgrade :=
  if i <? 0 then None else nth_error upgrades (Z.to_nat i).

Record PathStep := mkPathStep {
  upgrade : string;
  step_cost : float;
  moralImpact : float;
  newMoralScore : float;
}.

Record SimResult := mkSimResult {
  success : bool;
  totalClicks : float;
  finalMoral : float;
  path : list PathStep;
  estimatedTime : float;
  endingType : string;
}.

Definition getEndingType (moralScore : float) : string :=
  if PrimFloat.leb 60 moralScore then "High Morality"
  else if PrimFloat.leb 30 moralScore then "Medium Morality"
  else "Low Morality".

(** The [let] variables of [simulateUpgradePath]; the level is one of the
    integers the page's selector offers. *)
Record Vars := mkVars {
  money : float;
  currentUpgrade : Z;
  clicks : float;
  moralScore : float;
  steps : list PathStep;
}.

Inductive Flow :=
| Next (v : Vars)
| Break (v : Vars)
| Raise (e : Js.exn).

Fixpoint moral_penalty (fuel : nat) (upgrades : list Upgrade)
    (i currentUpgrade : Z) (moralScore : float) : option (Js.exn + float) :=
  if i <=? currentUpgrade then
    match fuel with
    | O => None
    | S fuel' =>
        match at_index upgrades i with
        | None => Some (inl (Js.TypeError "Cannot read properties of undefined"))
        | Some u =>
            moral_penalty fuel' upgrades (i + 1) currentUpgrade
              (PrimFloat.add moralScore (moral u))
        end
    end
  else Some (inr moralScore).

(** The body of the [while]. *)
Definition loop_body (target : float) (maxUpgrade : Z) (upgrades : list Upgrade)
    (v : Vars) : Flow :=
  match at_index upgrades (currentUpgrade v) with
  | None => Raise (Js.TypeError "Cannot read properties of undefined")
  | Some cur =>
      let currentEarnings := earnings cur in
      if (currentUpgrade v <? maxUpgrade)
         && (currentUpgrade v <? Z.of_nat (length upgrades) - 1) then
        match at_index upgrades (currentUpgrade v + 1) with
        | None => Raise (Js.TypeError "Cannot read properties of undefined")
        | Some nextUpgrade =>
            let moneyNeeded := PrimFloat.sub (cost nextUpgrade) (money v) in
            let v1 :=
              if PrimFloat.ltb 0 moneyNeeded then
                let clicksNeeded :=
                  Math_ceil (PrimFloat.div moneyNeeded currentEarnings) in
                mkVars (PrimFloat.add (money v)
                          (PrimFloat.mul clicksNeeded currentEarnings))
                       (currentUpgrade v) (PrimFloat.add (clicks v) clicksNeeded)
                       (moralScore v) (steps v)
              else v in
            if PrimFloat.leb (cost nextUpgrade) (money v1) then
              let moralScore' := PrimFloat.add (moralScore v1) (moral nextUpgrade) in
              Next (mkVars (money v1) (currentUpgrade v1 + 1) (clicks v1)
                      moralScore'
                      (steps v1 ++ [mkPathStep (name nextUpgrade) (cost nextUpgrade)
                                      (moral nextUpgrade) moralScore']))
            else Next v1
        end
      else
        let remainingMoney := PrimFloat.sub target (money v) in
        let finalClicks := Math_ceil (PrimFloat.div remainingMoney currentEarnings) in
        Break (mkVars target (currentUpgrade v) (PrimFloat.add (clicks v) finalClicks)
                 (moralScore v) (steps v))
  end.

(** [while (money < target && currentUpgrade <= maxUpgrade) { ... }] *)
Fixpoint while_loop (fuel : nat) (target : float) (maxUpgrade : Z)
    (upgrades : list Upgrade) (v : Vars) : option (Js.exn + Vars) :=
  if PrimFloat.ltb (money v) target && (currentUpgrade v <=? maxUpgrade) then
    match fuel with
    | O => None
    | S fuel' =>
        match loop_body target maxUpgrade upgrades v with
        | Next v' => while_loop fuel' target maxUpgrade upgrades v'
        | Break v' => Some (inr v')
        | Raise e => Some (inl e)
        end
    end
  else Some (inr v).

Definition simulateUpgradePath (fuel : nat)
    (target startMoney : float) (startUpgrade maxUpgrade : Z)
    (upgrades : list Upgrade) : option (Js.exn + SimResult) :=
  match moral_penalty fuel upgrades 1 startUpgrade 100 with
  | None => None
  | Some (inl e) => Some (inl e)
  | Some (inr moralScore0) =>
      match while_loop fuel target maxUpgrade upgrades
              (mkVars startMoney startUpgrade 0 moralScore0 []) with
      | None => None
      | Some (inl e) => Some (inl e)
      | Some (inr v) =>
          Some (inr (mkSimResult (PrimFloat.leb target (money v)) (clicks v)
                       (moralScore v) (steps v)
                       (Math_round (PrimFloat.div (clicks v) 10))
                       (getEndingType (moralScore v))))
      end
  end.

Definition of_step (p : GuideController.PathStep) : PathStep :=
  mkPathStep (GuideController.upgrade p) (of_Z (GuideController.step_cost p))
    (of_Z (GuideController.moralImpact p)) (of_Z (GuideController.newMoralScore p)).

(** A record of the integer model, read as the record of doubles it stands
    for. *)
Definition of_result (r : GuideController.SimResult) : SimResult :=
  mkSimResult (GuideController.success r) (of_Z (GuideController.totalClicks r))
    (of_Z (GuideController.finalMoral r))
    (List.map of_step (GuideController.path r))
    (of_Z (GuideController.estimatedTime r)) (GuideController.endingType r).

(** Two results are the same numbers (a zero of either sign being zero). *)
Definition same_step (a b : PathStep) : bool :=
  String.eqb (upgrade a) (upgrade b)
  && PrimFloat.eqb (step_cost a) (step_cost b)
  && PrimFloat.eqb (moralImpact a) (moralImpact b)
  && PrimFloat.eqb (newMoralScore a) (newMoralScore b).

Fixpoint same_path (a b : list PathStep) : bool :=
  match a, b with
  | [], [] => true
  | p :: a', q :: b' => same_step p q && same_path a' b'
  | _, _ => false
  end.

Definition same_result (a b : SimResult) : bool :=
  Bool.eqb (success a) (success b)
  && PrimFloat.eqb (totalClicks a) (totalClicks b)
  && PrimFloat.eqb (finalMoral a) (finalMoral b)
  && same_path (path a) (path b)
  && PrimFloat.eqb (estimatedTime a) (estimatedTime b)
  && String.eqb (endingType a) (endingType b).

End Doubles.

(** The integer model and the loop on doubles give the same result, or
    throw alike. *)
Definition agrees_at (target startMoney startUpgrade maxUpgrade : Z) : bool :=
  match Doubles.simulateUpgradePath 7 (Doubles.of_Z target) (Doubles.of_Z startMoney)
          startUpgrade maxUpgrade Doubles.upgrades_table,
        simulateUpgradePath 7 target startMoney startUpgrade maxUpgrade
          upgrades_table with
  | Some (inr a), Some (inr b) => Doubles.same_result a (Doubles.of_result b)
  | Some (inl _), Some (inl _) => true
  | _, _ => false
  end.

(** Amounts to try the two on, the bounds of the exact range among them,
    and every starting level of the table with every ceiling. *)
Definition sample_amounts : list Z :=
  [0; 1; 99; 100; 101; 25000; -1; -25000; 123456789012345; -123456789012345;
   2 ^ 49 + 12345; 2 ^ 50 - 77; 2 ^ 50 - 1; 1 - 2 ^ 50; 2 ^ 50; - 2 ^ 50].

Definition sample_levels : list (Z * Z) :=
  flat_map (fun s => List.map (fun m => (s, m)) [0; 1; 2; 3; 4; 5; 6; 7])
    [0; 1; 2; 3; 4; 5; 6].

End GuideController.

(** ** The service worker: [src/sw.js] *)

Module ServiceWorker.

(** The constants of the script. *)
Definition STATIC_CACHE_NAME : string := "lovemoney-static-v1.0.0".
Definition DYNAMIC_CACHE_NAME : string := "lovemoney-dynamic-v1.0.0".

Definition STATIC_ASSETS : list string :=
  ["/"; "/index.html"; "/guide.html"; "/about.html"; "/privacy.html";
   "/terms.html"; "/css/main.css"; "/css/game-embed.css"; "/css/mobile.css";
   "/js/main.js"; "/js/game-embed.js"; "/js/compatibility.js";
   "/js/analytics.js"; "/manifest.json"].

Definition DYNAMIC_ASSETS : list string :=
  ["/assets/images/"; "/assets/icons/"; "/data/"].

Definition NETWORK_FIRST_URLS : list string :=
  ["https://lovemoneygame.io/"; "/api/"; "/analytics/"].

(** The three tests of the [fetch] listener; [some] and [includes] are
    containment tests. *)
Definition isStaticAsset (url : string) : bool :=
  existsb (fun asset => Js.includes url asset) STATIC_ASSETS
  || Js.includes url ".css"
  || Js.includes url ".js"
  || Js.includes url "manifest.json".

Definition isDynamicAsset (url : string) : bool :=
  existsb (fun pattern => Js.includes url pattern) DYNAMIC_ASSETS
  || Js.includes url "/assets/"
  || Js.includes url "/data/".

Definition isNetworkFirstUrl (url : string) : bool :=
  existsb (fun pattern => Js.includes url pattern) NETWORK_FIRST_URLS.

(** What the [fetch] listener does with a request. *)
Inductive Route :=
| NotHandled          (* the listener returns without [respondWith] *)
| StaticAsset
| NetworkFirst
| DynamicAsset
| Default.

(** The [fetch] listener: [method] is [request.method], [protocol] is
    [new URL(request.url).protocol], [url] is [request.url]. *)
Definition route (method protocol url : string) : Route :=
  if negb (String.eqb method "GET") then NotHandled
  else if String.eqb protocol "chrome-extension:" then NotHandled
  else if isStaticAsset url then StaticAsset
  else if isNetworkFirstUrl url then NetworkFirst
  else if isDynamicAsset url then DynamicAsset
  else Default.

(** [caches] is modelled as the caches of the origin by name, each a map
    from request URL to what is stored for it. *)

(** [cleanupOldCaches]: the storage once every [caches.delete] has
    settled. *)
Definition cleanupOldCaches {Entry} (caches : gmap string (gmap string Entry))
    : gmap string (gmap string Entry) :=
  let validCaches := [STATIC_CACHE_NAME; DYNAMIC_CACHE_NAME] in
  filter (fun entry => existsb (String.eqb (fst entry)) validCaches = true) caches.

(** [CACHE_DURATION.static]: 7 days in milliseconds. *)
Definition CACHE_DURATION_static : Z := 7 * 24 * 60 * 60 * 1000.

(** The value [getCacheTime(url)] resolves to.  [json_time] is what
    [(await response.json()).time] yields for a stored response, [None]
    when that throws: the [catch] then leads to [return 0]. *)
Definition getCacheTime {Entry} (json_time : Entry -> option Z)
    (caches : gmap string (gmap string Entry)) (url : string) : Z :=
  match caches !! "lovemoney-metadata" with
  | Some cache =>
      match cache !! (url +:+ ":timestamp") with
      | Some response =>
          match json_time response with
          | Some time => time
          | None => 0
          end
      | None => 0
      end
  | None => 0
  end.

(** [Date.now() - cacheTime < CACHE_DURATION.static], the test under which
    [handleStaticAsset] answers from the cache without fetching. *)
Definition still_valid (now cacheTime : Z) : bool :=
  now - cacheTime <? CACHE_DURATION_static.

End ServiceWorker.

(** * Facts *)

Import GameEmbedHandler.

(** ** Reasoning about handlers *)

Ltac unfold_prims :=
  unfold setTimeout, clearTimeout, emit, modify, gets, throw, with_page, with_this,
    set_iframe, set_loadingOverlay, set_gameLoaded, set_retryCount,
    set_loadTimeout, set_listening, set_timers, set_next_timer,
    set_src_records, set_statusBar, set_body, set_next_node, set_log in *;
  cbn in *.

Ltac unfold_monad := unfold mbind, mret, M_bind, M_ret, try_catch in *.

Section Preservation.
Context (I : World -> Prop).

Lemma preserves_ret {A} (a : A) : preserves I (mret a).
Proof. intros w H. exact H. Qed.

Lemma preserves_throw {A} e : preserves I (@throw A e).
Proof. intros w H. exact H. Qed.

Lemma preserves_gets {A} (f : World -> A) : preserves I (gets f).
Proof. intros w H. exact H. Qed.

Lemma preserves_bind {A B} (m : M A) (k : A -> M B) :
  preserves I m -> (forall a, preserves I (k a)) -> preserves I (m ≫= k).
Proof.
  intros Hm Hk w H. specialize (Hm w H).
  unfold mbind, M_bind. destruct (m w) as [[a|e] w']; cbn in *.
  - apply Hk, Hm.
  - exact Hm.
Qed.

Lemma preserves_try_catch {A} (m : M A) h :
  preserves I m -> (forall e, preserves I (h e)) -> preserves I (try_catch m h).
Proof.
  intros Hm Hh w H. specialize (Hm w H).
  unfold try_catch. destruct (m w) as [[a|e] w']; cbn in *.
  - exact Hm.
  - apply Hh, Hm.
Qed.

Lemma preserves_modify f : (forall w, I w -> I (f w)) -> preserves I (modify f).
Proof. intros Hf w H. apply Hf, H. Qed.

(** A read followed by a use of the value read, at the state it was read in. *)
Lemma preserves_gets_bind {A B} (f : World -> A) (k : A -> M B) :
  (forall w, I w -> I (snd (k (f w) w))) -> preserves I (gets f ≫= k).
Proof. intros H w Hw. apply H, Hw. Qed.

Lemma preserves_if_app env f :
  (forall app, preserves I (f app)) -> preserves I (if_app env f).
Proof.
  intros Hf. unfold if_app.
  destruct (loveMoneyApp env); [apply Hf|apply preserves_ret].
Qed.

Lemma preserves_prop data key : preserves I (prop data key).
Proof.
  unfold prop. destruct (Js.get data key); [apply preserves_throw|apply preserves_ret].
Qed.

End Preservation.

Ltac preserve_step :=
  first
    [ apply preserves_ret
    | apply preserves_throw
    | apply preserves_gets
    | apply preserves_prop
    | apply preserves_if_app; intros ?
    | apply preserves_bind; [| intros ?]
    | apply preserves_try_catch; [| intros ?]
    | match goal with
      | |- preserves _ (match ?x with _ => _ end) => destruct x
      end ].

Ltac keeps := intros [[] []]; unfold_prims; repeat (case_match; cbn); auto.

Create HintDb stable.

Section EveryHandler.
Context (env : Env) (I : World -> Prop) (HI : stable I).

Lemma stable_modify f : keeps f -> preserves I (modify f).
Proof. intros Hf. apply preserves_modify, (stable_keeps I HI), Hf. Qed.

Ltac preserve :=
  repeat first
    [ solve [eauto with stable]
    | solve [apply stable_modify; keeps]
    | solve [apply (stable_setTimeout I HI); discriminate]
    | solve [apply (stable_clearLoadTimeout I HI)]
    | solve [apply (stable_startLoadTimeout I HI)]
    | solve [apply (stable_reset I HI)]
    | solve [apply (stable_clearTimeout I HI)]
    | preserve_step ].

Lemma stable_emit e : preserves I (emit e).
Proof. apply stable_modify. keeps. Qed.

Lemma stable_write_src s : preserves I (write_src s).
Proof. unfold write_src. preserve. Qed.

Hint Resolve stable_emit stable_write_src : stable.

Lemma stable_trackEvent app c a l : preserves I (trackEvent app c a l).
Proof. unfold trackEvent. preserve. Qed.

Lemma stable_updateStatus app m k : preserves I (updateStatus app m k).
Proof. unfold updateStatus. preserve. Qed.

Hint Resolve stable_trackEvent stable_updateStatus : stable.

Lemma stable_showLoadingState : preserves I (showLoadingState env).
Proof. unfold showLoadingState. preserve. Qed.

Lemma stable_showRetryState : preserves I (showRetryState env).
Proof. unfold showRetryState. preserve. Qed.

Lemma stable_showGameError msg : preserves I (showGameError env msg).
Proof. unfold showGameError. preserve. Qed.

Lemma stable_showGameLoaded : preserves I showGameLoaded.
Proof. unfold showGameLoaded. preserve. Qed.

Lemma stable_hideLoadingOverlay : preserves I hideLoadingOverlay.
Proof. unfold hideLoadingOverlay. preserve. Qed.

Hint Resolve stable_showLoadingState stable_showRetryState
  stable_showGameError stable_showGameLoaded stable_hideLoadingOverlay : stable.

Lemma stable_onGameLoadSuccess : preserves I (onGameLoadSuccess env).
Proof. unfold onGameLoadSuccess. preserve. Qed.

(** [retryLoad] is entered only under [retryCount < maxRetries]. *)
Lemma stable_retryLoad w :
  I w -> retryCount (this w) < maxRetries (this w) ->
  I (snd (retryLoad env w)).
Proof.
  intros Hw Hlt. unfold retryLoad.
  set (rest := (_ ← gets (fun w => retryCount (this w)); _) : M unit).
  assert (Hrest : preserves I rest) by (subst rest; preserve).
  apply (Hrest _ (stable_retry I HI w Hw Hlt)).
Qed.

Lemma stable_onGameLoadError msg : preserves I (onGameLoadError env msg).
Proof.
  unfold onGameLoadError. apply preserves_bind; [preserve|intros _].
  apply preserves_gets_bind. intros w Hw.
  unfold_monad. unfold gets at 1. cbn.
  destruct (Z.ltb_spec (retryCount (this w)) (maxRetries (this w))) as [Hlt|Hge].
  - pose proof (stable_retryLoad w Hw Hlt) as Hr.
    destruct (retryLoad env w) as [[[]|e] w1]; cbn in *; [|exact Hr].
    revert w1 Hr. change (preserves I (if_app env (fun app => trackEvent app "Game" "load_error" msg))).
    preserve.
  - pose proof (stable_showGameError msg w Hw) as Hr.
    destruct (showGameError env msg w) as [[[]|e] w1]; cbn in *; [|exact Hr].
    revert w1 Hr. change (preserves I (if_app env (fun app => trackEvent app "Game" "load_error" msg))).
    preserve.
Qed.

Hint Resolve stable_onGameLoadSuccess stable_onGameLoadError : stable.

Lemma stable_onSrcChange : preserves I (onSrcChange env).
Proof. unfold onSrcChange. preserve. Qed.

Lemma stable_forceReload now : preserves I (forceReload env now).
Proof. unfold forceReload. preserve. Qed.

Lemma stable_handleIframeMessage origin data :
  preserves I (handleIframeMessage env origin data).
Proof.
  unfold handleIframeMessage, handleGameProgress, handleGameComplete,
    showGameComplete.
  preserve.
Qed.

Hint Resolve stable_onSrcChange stable_forceReload
  stable_handleIframeMessage : stable.

Lemma stable_run_callback cb : preserves I (run_callback env cb).
Proof.
  destruct cb; unfold run_callback, onLoadTimeout, isIframeContentAccessible;
    preserve.
Qed.

Hint Resolve stable_run_callback : stable.

Lemma stable_dispatch ev : preserves I (dispatch env ev).
Proof. destruct ev; unfold dispatch, onIframeLoad, onIframeError; preserve. Qed.

Lemma stable_forEach_record n : preserves I (forEach_record env n).
Proof. induction n; cbn [forEach_record]; preserve. Qed.

Hint Resolve stable_dispatch stable_forEach_record : stable.

Lemma stable_task m w : preserves I m -> I w -> I (task env m w).
Proof.
  intros Hm. revert w. unfold task.
  change (preserves I (report m;; report (observer_callback env))).
  unfold report, observer_callback. preserve.
Qed.

Lemma stable_init doc : preserves I (init doc).
Proof. unfold init, setupIframeListeners. preserve. Qed.

Lemma stable_on_failure f : preserves I (on_failure env f).
Proof. destruct f; unfold on_failure, onIframeError; preserve. Qed.

(** An invariant of the fresh controller holds in every reachable state. *)
Lemma stable_reachable w :
  (forall doc, I (constructor doc)) -> reachable env w -> I w.
Proof.
  intros Hnew. induction 1 as [doc|w ev _ IH].
  - apply Hnew.
  - apply stable_task; [apply stable_dispatch|exact IH].
Qed.

End EveryHandler.

(** ** Running handlers on a symbolic state *)

#[local] Arguments pretty : simpl never.
#[local] Arguments Js.to_string : simpl never.
#[local] Arguments Js.or_else : simpl never.
#[local] Arguments String.append : simpl never.
#[local] Arguments retry_message : simpl never.

Ltac unfold_methods :=
  unfold succeed, on_failure, deliver, task, report, observer_callback, dispatch,
    run_callback, handleIframeMessage, handleGameComplete, handleGameProgress,
    showGameComplete, prop, forceReload, onSrcChange, onIframeError,
    onIframeLoad, onLoadTimeout, onGameLoadError, onGameLoadSuccess, retryLoad,
    hideLoadingOverlay, showGameLoaded, showGameError, showRetryState,
    showLoadingState, startLoadTimeout, clearLoadTimeout,
    isIframeContentAccessible, write_src, trackEvent, updateStatus, if_app in *.

Ltac run_methods := unfold_methods; unfold_monad; unfold_prims.

Ltac split_cases :=
  repeat match goal with
         | |- context [match ?x with _ => _ end] =>
             lazymatch x with
             | context [match _ with _ => _ end] => fail
             | _ => destruct x eqn:?; cbn
             end
         end.

Ltac split_cases_in H :=
  repeat match type of H with
         | context [match ?x with _ => _ end] =>
             lazymatch x with
             | context [match _ with _ => _ end] => fail
             | _ => destruct x eqn:?; cbn in H
             end
         end.

(** ** The pending bounded wait *)

Lemma timers_wf_clearLoadTimeout : preserves timers_wf clearLoadTimeout.
Proof.
  intros [h b] [H1 H2]. unfold clearLoadTimeout. unfold_monad. unfold_prims.
  destruct (loadTimeout h) as [id|] eqn:E; cbn; [|split; cbn; rewrite ?E; eauto].
  split; cbn.
  - intros i entry. rewrite lookup_delete_Some. intros [_ Hin]. eauto.
  - intros i d. rewrite lookup_delete_Some. intros [Hne Hin].
    specialize (H2 _ _ Hin). congruence.
Qed.

(** After [clearLoadTimeout] no bounded wait is pending. *)
Lemma clearLoadTimeout_cancels w :
  timers_wf w -> load_timers (snd (clearLoadTimeout w)) = ∅.
Proof.
  destruct w as [h b]. intros [H1 H2].
  unfold load_timers, clearLoadTimeout. unfold_monad. unfold_prims.
  apply map_empty_filter. rewrite map_Forall_lookup.
  intros i [d cb] Hin Hcb. cbn in Hcb. subst cb.
  destruct (loadTimeout h) as [id|] eqn:E; cbn in Hin.
  - apply lookup_delete_Some in Hin as [Hne Hin].
    specialize (H2 _ _ Hin). congruence.
  - specialize (H2 _ _ Hin). congruence.
Qed.

Lemma startLoadTimeout_run w :
  startLoadTimeout w =
  let w1 := snd (clearLoadTimeout w) in
  let id := next_timer (page w1) in
  (Normal tt,
   mkWorld (set_loadTimeout (Some id) (this w1))
     (set_next_timer (Pos.succ id)
        (set_timers (<[id := (loadTimeoutDuration (this w1), CbLoadTimeout)]>
                       (timers (page w1))) (page w1)))).
Proof.
  destruct w as [h b]. unfold startLoadTimeout, clearLoadTimeout.
  unfold_monad. unfold_prims. destruct (loadTimeout h); reflexivity.
Qed.

Lemma clearLoadTimeout_frame w :
  next_timer (page (snd (clearLoadTimeout w))) = next_timer (page w)
  /\ loadTimeoutDuration (this (snd (clearLoadTimeout w)))
     = loadTimeoutDuration (this w).
Proof.
  destruct w as [h b]. unfold clearLoadTimeout. unfold_monad. unfold_prims.
  destruct (loadTimeout h); cbn; auto.
Qed.

(** Arming cancels first: afterwards the new wait is the only one pending. *)
Lemma startLoadTimeout_spec w :
  timers_wf w ->
  timers_wf (snd (startLoadTimeout w))
  /\ load_timers (snd (startLoadTimeout w))
     = {[ next_timer (page w) := (loadTimeoutDuration (this w), CbLoadTimeout) ]}.
Proof.
  intros Hwf. rewrite startLoadTimeout_run.
  pose proof (timers_wf_clearLoadTimeout w Hwf) as [H1 H2].
  pose proof (clearLoadTimeout_cancels w Hwf) as Hnone.
  destruct (clearLoadTimeout_frame w) as [Hn Hd].
  set (w1 := snd (clearLoadTimeout w)) in *. cbn zeta.
  rewrite Hn, Hd. clearbody w1. destruct w1 as [h1 b1]. unfold_prims.
  assert (Hfresh : timers b1 !! next_timer (page w) = None).
  { destruct (timers b1 !! next_timer (page w)) eqn:E; [|done].
    apply H1 in E. rewrite Hn in E. lia. }
  split; [split; cbn|].
  - intros id entry. rewrite lookup_insert_Some. intros [[<- _]|[_ Hin]].
    + lia.
    + specialize (H1 _ _ Hin). lia.
  - intros id d. rewrite lookup_insert_Some. intros [[<- _]|[Hne Hin]]; [done|].
    assert (Hl : load_timers (mkWorld h1 b1) !! id = Some (d, CbLoadTimeout)).
    { unfold load_timers. cbn. by apply map_lookup_filter_Some. }
    rewrite Hnone in Hl. by rewrite lookup_empty in Hl.
  - unfold load_timers in *. cbn in *.
    rewrite map_filter_insert_True by done.
    rewrite Hnone. apply insert_empty.
Qed.

Lemma timers_wf_stable : stable timers_wf.
Proof.
  split.
  - intros f Hf w [H1 H2]. destruct (Hf w) as (Ht & Hn & Hl & _).
    unfold timers_wf. rewrite Ht, Hn, Hl. auto.
  - intros cb d Hcb [h b] [H1 H2]. unfold_prims. split; cbn.
    + intros id entry. rewrite lookup_insert_Some. intros [[<- _]|[_ Hin]].
      * lia.
      * specialize (H1 _ _ Hin). lia.
    + intros id d'. rewrite lookup_insert_Some. intros [[_ Heq]|[_ Hin]].
      * congruence.
      * eauto.
  - intros id [h b] [H1 H2]. unfold_prims. split; cbn.
    + intros i entry. rewrite lookup_delete_Some. intros [_ Hin]. eauto.
    + intros i d. rewrite lookup_delete_Some. intros [_ Hin]. eauto.
  - apply timers_wf_clearLoadTimeout.
  - intros w Hwf. apply startLoadTimeout_spec, Hwf.
  - intros [h b] [H1 H2]. split; cbn; eauto.
  - intros [h b] [H1 H2] _. split; cbn; eauto.
Qed.

Lemma timers_wf_at_most_one w : timers_wf w -> (size (load_timers w) <= 1)%nat.
Proof.
  intros [_ H2].
  destruct (decide (load_timers w = ∅)) as [->|Hne];
    [by rewrite map_size_empty; lia|].
  apply map_choose in Hne as (id & [d cb] & Hid).
  pose proof Hid as Hid'. apply map_lookup_filter_Some in Hid' as [Hin Hcb].
  cbn in Hcb. subst cb.
  assert (load_timers w = {[ id := (d, CbLoadTimeout) ]}) as ->.
  { apply map_eq. intros j. destruct (decide (j = id)) as [->|Hj].
    - by rewrite Hid, lookup_singleton_eq.
    - rewrite lookup_singleton_ne by done.
      destruct (load_timers w !! j) as [[d' cb']|] eqn:E; [|done].
      apply map_lookup_filter_Some in E as [Hin' Hcb']. cbn in Hcb'. subst cb'.
      pose proof (H2 _ _ Hin). pose proof (H2 _ _ Hin'). congruence. }
  by rewrite map_size_singleton.
Qed.

Lemma timers_wf_constructor doc : timers_wf (constructor doc).
Proof.
  unfold constructor. apply (stable_init _ timers_wf_stable).
  split; cbn; intros ? ?; by rewrite lookup_empty.
Qed.

(** C6: in every reachable state at most one load-timeout timer is pending.
    Arming a bounded wait is [startLoadTimeout], through which [init], the
    retry, [onSrcChange] and [forceReload] all go: it leaves exactly the new
    timer pending, a pending one being cancelled first; and the operations
    that arm, run in a reachable state, again leave at most one pending. *)
Theorem one_pending_load_timeout env w :
  reachable env w ->
  (size (load_timers w) <= 1)%nat
  /\ load_timers (snd (startLoadTimeout w))
     = {[ next_timer (page w) := (loadTimeoutDuration (this w), CbLoadTimeout) ]}
  /\ (forall doc currentSrc now,
        Forall (fun arm : M unit => (size (load_timers (snd (arm w))) <= 1)%nat)
          [init doc; run_callback env (CbRetryRestore currentSrc);
           onSrcChange env; forceReload env now]).
Proof.
  intros Hr.
  assert (Hwf : timers_wf w).
  { apply (stable_reachable env _ timers_wf_stable); [|exact Hr].
    apply timers_wf_constructor. }
  split; [|split].
  - apply timers_wf_at_most_one, Hwf.
  - apply startLoadTimeout_spec, Hwf.
  - intros doc currentSrc now.
    constructor; [|constructor; [|constructor; [|constructor; [|constructor]]]];
      apply timers_wf_at_most_one.
    + apply (stable_init _ timers_wf_stable), Hwf.
    + apply (stable_run_callback env _ timers_wf_stable), Hwf.
    + apply (stable_onSrcChange env _ timers_wf_stable), Hwf.
    + apply (stable_forceReload env _ timers_wf_stable), Hwf.
Qed.

(** ** The retry counter *)

Lemma retry_bounded_stable : stable retry_bounded.
Proof.
  split.
  - intros f Hf w [H1 H2]. destruct (Hf w) as (_ & _ & _ & Hc & Hm).
    unfold retry_bounded. rewrite Hc, Hm. auto.
  - intros cb d _ [h b] H. exact H.
  - intros id [h b] H. exact H.
  - intros [h b] H. unfold clearLoadTimeout. unfold_monad. unfold_prims.
    destruct (loadTimeout h); exact H.
  - intros w H. rewrite startLoadTimeout_run.
    destruct w as [h b]. unfold clearLoadTimeout. unfold_monad. unfold_prims.
    destruct (loadTimeout h); exact H.
  - intros [h b] [H1 H2]. split; cbn in *; [exact H1|lia].
  - intros [h b] [H1 H2] Hlt. split; cbn in *; [exact H1|lia].
Qed.

Lemma retry_bounded_constructor doc : retry_bounded (constructor doc).
Proof.
  unfold constructor. apply (stable_init _ retry_bounded_stable).
  split; cbn; lia.
Qed.

Lemma constructor_fresh doc :
  gameLoaded (this (constructor doc)) = false
  /\ src_records (page (constructor doc)) = 0%nat
  /\ retryCount (this (constructor doc)) = 0
  /\ maxRetries (this (constructor doc)) = 3
  /\ shown (constructor doc)
     = option_map (fun _ => PageMarkup) (loadingOverlayEl doc)
  /\ log (page (constructor doc)) = [].
Proof.
  destruct doc as [[fr|] [hid|] sb]; cbn; auto 10.
Qed.

(** The counter stays within its bounds in every state the page can reach. *)
Lemma retryCount_bounded env w :
  reachable env w ->
  maxRetries (this w) = 3 /\ 0 <= retryCount (this w) <= maxRetries (this w).
Proof.
  intros Hr.
  assert (Hb : retry_bounded w).
  { apply (stable_reachable env _ retry_bounded_stable); [|exact Hr].
    apply retry_bounded_constructor. }
  destruct Hb as [Hm Hc]. rewrite Hm. auto.
Qed.

(** C1, at four failures with the retries between them, on the sample
    page: the bounded wait expires, the iframe fires [error], the embed
    reports [gameError], the iframe fires [error] again, and after each of
    the first three the retry it started runs (its reload timer fires, then
    its restore timer).  The retry's own assignments to [iframe.src] reach
    [onSrcChange], which puts the counter back to 0: so the fourth failure
    finds the counter at 0, is answered by a retry announced as 1 of 3 like
    the three before it, and the error display does not appear.  The counter
    climbs to 3 and the error display appears only when the failures arrive
    before any retry has run, as four [gameError] messages in a row do, and
    even then the display is taken down again when the first pending reload
    fires. *)
Lemma fourth_failure_after_three_retries_retries_again :
  let gameError :=
    Message allowed_origin
      (Js.Obj [("type", Js.Str "gameError"); ("message", Js.Str "crashed")]) in
  let retried :=
    run sample_env
      [TimerFired 1; TimerFired 2; TimerFired 3;
       IframeError; TimerFired 7; TimerFired 8;
       gameError; TimerFired 12; TimerFired 13;
       IframeError]
      (constructor sample_doc) in
  let burst :=
    run sample_env [gameError; gameError; gameError; gameError]
      (constructor sample_doc) in
  (retryCount (this retried) = 1
   /\ failed retried = false
   /\ shown retried = Some (RetryContent 1 3)
   /\ console_logs retried
      = [ConsoleLog "Retrying game load (1/3)"; ConsoleLog "Retrying game load (1/3)";
         ConsoleLog "Retrying game load (1/3)"; ConsoleLog "Retrying game load (1/3)"])
  /\ (retryCount (this burst) = 3
      /\ shown burst = Some (ErrorContent "crashed")
      /\ console_logs burst
         = [ConsoleLog "Retrying game load (1/3)"; ConsoleLog "Retrying game load (2/3)";
            ConsoleLog "Retrying game load (3/3)"]
      /\ retryCount (this (deliver sample_env (TimerFired 2) burst)) = 0
      /\ failed (deliver sample_env (TimerFired 2) burst) = false).
Proof. vm_compute. repeat split. Qed.

(** ** Two failures, then success *)

(** C7, at two failures with their retries and then the success signal, on
    the sample page: the iframe fires [error] and the retry runs (reload
    timer, restore timer), the bounded wait of the retried load expires and
    the second retry runs, then the embed reports [gameLoaded].  The final
    state is loaded and exactly one success status has been emitted, but the
    counter observed at the moment of success is 0, not 2: each retry's own
    assignments to [iframe.src] reached [onSrcChange], which reset it, and
    both retries were announced as 1 of 3.  The same holds when the success
    signal is the iframe's [load] event and its settle delay.  The counter
    is at 2 when the success arrives only if no retry has run yet (two
    [gameError] messages in a row), and then the first pending reload takes
    the loaded state away again. *)
Lemma success_after_two_retries_finds_counter_reset :
  let gameLoaded_message :=
    Message allowed_origin (Js.Obj [("type", Js.Str "gameLoaded")]) in
  let gameError :=
    Message allowed_origin (Js.Obj [("type", Js.Str "gameError")]) in
  let at_success :=
    run sample_env
      [IframeError; TimerFired 2; TimerFired 3;
       TimerFired 6; TimerFired 7; TimerFired 8]
      (constructor sample_doc) in
  let final := deliver sample_env gameLoaded_message at_success in
  let final_native := run sample_env [IframeLoad; TimerFired 12] at_success in
  let burst := run sample_env [gameError; gameError] (constructor sample_doc) in
  (retryCount (this at_success) = 0
   /\ gameLoaded (this at_success) = false
   /\ console_logs at_success
      = [ConsoleLog "Retrying game load (1/3)"; ConsoleLog "Retrying game load (1/3)"]
   /\ gameLoaded (this final) = true
   /\ success_statuses final = [UpdateStatus "✅ Game loaded successfully!" "success"]
   /\ gameLoaded (this final_native) = true
   /\ success_statuses final_native
      = [UpdateStatus "✅ Game loaded successfully!" "success"])
  /\ (retryCount (this burst) = 2
      /\ gameLoaded (this (deliver sample_env gameLoaded_message burst)) = true
      /\ gameLoaded (this (run sample_env [gameLoaded_message; TimerFired 2] burst))
         = false).
Proof. vm_compute. repeat split. Qed.

(** ** Messages *)

(** C2: a message whose origin is not exactly the embed's origin is
    dropped: the handler returns at once, and the controller, the page and
    the log of effects are what they were, whatever the payload. *)
Theorem foreign_origin_ignored env origin data w :
  origin <> allowed_origin ->
  handleIframeMessage env origin data w = (Normal tt, w)
  /\ dispatch env (Message origin data) w = (Normal tt, w).
Proof.
  intros Hne. apply String.eqb_neq in Hne. unfold allowed_origin in Hne.
  assert (H : handleIframeMessage env origin data w = (Normal tt, w)).
  { unfold handleIframeMessage. rewrite Hne. reflexivity. }
  split; [exact H|].
  unfold dispatch. unfold_monad. unfold gets.
  destruct (listening (page w)); [exact H|reflexivity].
Qed.

(** C3: a success signal that finds the controller loaded changes nothing
    and emits nothing, whether it arrives as the settled [load] event or as
    a [gameLoaded] message; hence a second success signal leaves the state
    the first one produced. *)
Theorem success_signal_idempotent env w :
  (gameLoaded (this w) = true ->
   onGameLoadSuccess env w = (Normal tt, w)
   /\ run_callback env CbLoadSettled w = (Normal tt, w)
   /\ handleIframeMessage env allowed_origin
        (Js.Obj [("type", Js.Str "gameLoaded")]) w = (Normal tt, w))
  /\ snd (onGameLoadSuccess env (snd (onGameLoadSuccess env w)))
     = snd (onGameLoadSuccess env w).
Proof.
  assert (Hnoop : forall w', gameLoaded (this w') = true ->
                             onGameLoadSuccess env w' = (Normal tt, w')).
  { intros w' H. unfold onGameLoadSuccess. unfold_monad. unfold gets.
    rewrite H. reflexivity. }
  split.
  - intros H. split; [|split].
    + apply Hnoop, H.
    + unfold run_callback, isIframeContentAccessible. unfold_monad. unfold gets.
      destruct (iframe (this w)), (contentDocument_readable env); apply Hnoop, H.
    + unfold handleIframeMessage, prop. unfold_monad. cbn.
      rewrite (Hnoop w H). reflexivity.
  - destruct (gameLoaded (this w)) eqn:Hg.
    + rewrite (Hnoop w Hg). cbn. by rewrite (Hnoop w Hg).
    + rewrite Hnoop; [reflexivity|].
      destruct w as [[fr ov gl rc mx lt ltd] [on tm nt sr sb bd nn lg]].
      cbn in Hg. subst gl. run_methods. split_cases; reflexivity.
Qed.

(** C4, as the code has it: the tag the controller switches on is
    [gameComplete].  With that tag the payload of the claim appends exactly
    one completion modal, showing "High Morality" and "25000", and makes one
    analytics call labelled with the ending when the collaborator is there. *)
Theorem gameComplete_notifies_once env w :
  calm env ->
  let data := completion_payload "gameComplete" in
  let w' := snd (handleIframeMessage env allowed_origin data w) in
  body (page w')
  = body (page w) ++ [(next_node (page w), CompletionModal "High Morality" "25000")]
  /\ log (page w')
     = log (page w)
       ++ (if loveMoneyApp env is Some _
           then [TrackEvent "Game" "complete" (Js.Str "High Morality")]
           else []).
Proof.
  intros Hcalm data w'. subst data w'. unfold completion_payload.
  destruct w as [[fr ov gl rc mx lt ltd] [on tm nt sr sb bd nn lg]].
  destruct (loveMoneyApp env) as [app|] eqn:Happ.
  - destruct (Hcalm app Happ) as [Ht Hu].
    run_methods. rewrite Happ. cbn. rewrite Ht. cbn. split; reflexivity.
  - run_methods. rewrite Happ. cbn. rewrite app_nil_r. split; reflexivity.
Qed.

(** ** Collaborator faults *)

(** The events of a page whose collaborators return leave nothing for the
    page's error reporting: turn by turn, the handler and the observer's
    delivery return normally. *)












(** ** The compatibility score *)

Section Score.
Import CompatibilityTester.

Lemma round_div_percent score : Js.round_div (score * 100) 100 = score.
Proof.
  unfold Js.round_div. symmetry. apply (Z.div_unique_pos _ _ score 100); lia.
Qed.

Lemma tally_fold results ws acc :
  fold_left
    (fun acc fw =>
       let maxScore := snd acc + snd fw in
       if is_supported results (fst fw) then (fst acc + snd fw, maxScore)
       else (fst acc, maxScore)) ws acc
  = (fst acc + foldr Z.add 0 (List.map (points results) ws),
     snd acc + foldr Z.add 0 (List.map snd ws)).
Proof.
  revert acc. induction ws as [|fw ws IH]; intros [s m]; cbn.
  - f_equal; lia.
  - rewrite IH. unfold points at 2.
    destruct (is_supported results (fst fw)); cbn; f_equal; lia.
Qed.

Lemma calculateCompatibilityScore_sum results :
  snd (tally results) = 100
  /\ fst (tally results) = foldr Z.add 0 (List.map (points results) weights)
  /\ calculateCompatibilityScore results
     = fst (tally results) + points results ("browser", 30).
Proof.
  unfold calculateCompatibilityScore, tally. rewrite tally_fold.
  cbn [fst snd]. split; [reflexivity|]. split; [reflexivity|].
  change (snd (0 + _, 0 + _)) with 100.
  change (weight_of "browser") with 30.
  change (points results ("browser", 30))
    with (if is_supported results "browser" then 30 else 0).
  destruct (is_supported results "browser"); rewrite round_div_percent; lia.
Qed.

Lemma is_supported_delete results feature other :
  is_supported (delete feature results) other
  = if decide (feature = other) then false else is_supported results other.
Proof.
  unfold is_supported. destruct (decide (feature = other)) as [->|Hne].
  - by rewrite lookup_delete_eq.
  - by rewrite lookup_delete_ne.
Qed.

(** C8: the maximum is 100 whatever is supported; a supported browser
    contributes its weight of 30 once in the loop and once more as the
    bonus, so 60 in all; and with every weighted feature supported the
    function returns 130. *)
Theorem browser_weight_counted_twice results :
  snd (tally results) = 100
  /\ (is_supported results "browser" = true ->
      fst (tally results) = fst (tally (delete "browser" results)) + 30
      /\ calculateCompatibilityScore results = fst (tally results) + 30
      /\ calculateCompatibilityScore results
         = calculateCompatibilityScore (delete "browser" results) + 60
      /\ (Forall (fun fw => is_supported results (fst fw) = true) weights ->
          calculateCompatibilityScore results = 130)).
Proof.
  destruct (calculateCompatibilityScore_sum results) as (Hmax & Hsum & Hscore).
  destruct (calculateCompatibilityScore_sum (delete "browser" results))
    as (_ & Hsum' & Hscore').
  split; [exact Hmax|]. intros Hb.
  rewrite Hscore, Hscore', Hsum, Hsum'. unfold points, weights.
  cbn [List.map foldr fst snd].
  rewrite !is_supported_delete, Hb.
  repeat case_decide; try congruence.
  repeat split; try lia.
  intros Hall. unfold weights in Hall.
  repeat (apply Forall_cons in Hall as [Hf Hall]; cbn in Hf; rewrite ?Hf; clear Hf).
  reflexivity.
Qed.

End Score.

(** ** The upgrade calculator *)

Section Calculator.
Import GuideController.

Lemma ceil_div_covers a b : 0 < b -> a <= Js.ceil_div a b * b.
Proof.
  intros Hb. unfold Js.ceil_div.
  pose proof (Z.div_mod (- a) b ltac:(lia)) as Hdm.
  pose proof (Z.mod_pos_bound (- a) b Hb) as Hmod. nia.
Qed.

(** The table has entries exactly at the indices 0 to 6, all with positive
    earnings. *)
Lemma at_index_table i :
  (0 <= i <= 6 ->
   exists u, at_index upgrades_table i = Some u /\ 0 < earnings u)
  /\ (~ 0 <= i <= 6 -> at_index upgrades_table i = None).
Proof.
  split.
  - intros Hi.
    assert (i = 0 \/ i = 1 \/ i = 2 \/ i = 3 \/ i = 4 \/ i = 5 \/ i = 6)
      as Hcases by lia.
    repeat (destruct Hcases as [->|Hcases]); [..|subst i];
      eexists; (split; [reflexivity|cbn; lia]).
  - intros Hi. unfold at_index. destruct (Z.ltb_spec i 0); [reflexivity|].
    apply nth_error_None. cbn. lia.
Qed.





(** [Math.ceil] and [Math.round] as built from the rounding of doubles. *)
Lemma Math_ceil_samples :
  List.map Doubles.Math_ceil
    [2.5; (-2.5); 0.25; (-0.25); 3; 1e20; (-1e20); 4503599627370495.5; infinity]%float
  = [3; (-2); 1; 0; 3; 1e20; (-1e20); 4503599627370496; infinity]%float
  /\ List.map Doubles.Math_round [2.5; (-2.5); 0.25; 1.5; 91.75; 3]%float
     = [3; (-2); 0; 2; 92; 3]%float.
Proof. split; reflexivity. Qed.

(** On amounts of the exact range, its bounds among them, the integer model
    computes what the loop computes on doubles, from every starting level
    of the table and with every ceiling. *)
Lemma doubles_agree_on_exact_amounts :
  Forall exact_amount sample_amounts
  /\ forallb
       (fun target =>
          forallb
            (fun startMoney =>
               forallb (fun levels => agrees_at target startMoney (fst levels) (snd levels))
                 sample_levels)
            sample_amounts)
       sample_amounts
     = true.
Proof.
  split.
  - repeat constructor; unfold exact_amount; lia.
  - vm_compute. reflexivity.
Qed.

(** A field left empty reaches the calculator as [NaN]: the [while] is not
    entered and the record says [success: false]. *)
Lemma empty_field_is_no_path :
  Doubles.simulateUpgradePath 7 nan 0 0 6 Doubles.upgrades_table
  = Some (inr (Doubles.mkSimResult false 0 100 [] 0 "High Morality"))
  /\ Doubles.simulateUpgradePath 7 25000 nan 0 6 Doubles.upgrades_table
     = Some (inr (Doubles.mkSimResult false 0 100 [] 0 "High Morality")).
Proof. split; reflexivity. Qed.



End Calculator.

(** ** Search *)

Section Search.
Import GuideController.

Lemma insert_sorted_Forall (P : SearchResult -> Prop) x l :
  P x -> Forall P l -> Forall P (insert_sorted by_score_desc x l).
Proof.
  intros Hx Hl. induction Hl as [|y l Hy Hl IH]; cbn.
  - by constructor.
  - destruct (by_score_desc x y <=? 0); repeat constructor; auto.
Qed.

Lemma sort_Forall (P : SearchResult -> Prop) l :
  Forall P l -> Forall P (sort by_score_desc l).
Proof.
  induction 1 as [|x l Hx Hl IH]; cbn; [constructor|].
  by apply insert_sorted_Forall.
Qed.

Lemma insert_sorted_sorted x l :
  StronglySorted (fun a b => score b <= score a) l ->
  StronglySorted (fun a b => score b <= score a) (insert_sorted by_score_desc x l).
Proof.
  induction 1 as [|y l Hl IH Hy]; cbn.
  - repeat constructor.
  - unfold by_score_desc at 1. destruct (Z.leb_spec (score y - score x) 0) as [Hle|Hgt].
    + constructor; [by constructor|]. constructor; [lia|].
      eapply Forall_impl; [exact Hy|]. cbn. intros z Hz. lia.
    + constructor; [exact IH|].
      apply insert_sorted_Forall; [lia|exact Hy].
Qed.

Lemma sort_sorted l :
  StronglySorted (fun a b => score b <= score a) (sort by_score_desc l).
Proof.
  induction l as [|x l IH]; cbn; [constructor|]. by apply insert_sorted_sorted.
Qed.

Lemma StronglySorted_firstn {A} (R : A -> A -> Prop) n l :
  StronglySorted R l -> StronglySorted R (firstn n l).
Proof.
  intros Hs. revert n. induction Hs as [|x l Hs IH Hx]; intros [|n]; cbn;
    try constructor; auto.
  by apply Forall_take.
Qed.

(** The items pushed onto [results] all have a positive score. *)
Lemma results_positive query queryWords searchIndex acc :
  Forall (fun r => 0 < score r) acc ->
  Forall (fun r => 0 < score r)
    (fold_left
       (fun results it =>
          let score := item_score query queryWords it in
          if 0 <? score then results ++ [mkSearchResult it score] else results)
       searchIndex acc).
Proof.
  revert acc. induction searchIndex as [|it rest IH]; intros acc Hacc; cbn;
    [exact Hacc|].
  apply IH. destruct (Z.ltb_spec 0 (item_score query queryWords it)); [|exact Hacc].
  apply Forall_app. split; [exact Hacc|]. by repeat constructor.
Qed.

(** C10: whatever the index and the query, [searchContent] returns at most
    eight results, each with a positive score, in order of non-increasing
    score. *)
Theorem searchContent_top_eight searchIndex query :
  let results := searchContent searchIndex query in
  (length results <= 8)%nat
  /\ Forall (fun r => 0 < score r) results
  /\ StronglySorted (fun a b => score b <= score a) results.
Proof.
  cbn zeta. unfold searchContent.
  split; [|split].
  - rewrite length_take. lia.
  - apply Forall_take, sort_Forall, results_positive. constructor.
  - apply StronglySorted_firstn, sort_sorted.
Qed.

End Search.

(** ** The retry's reload seen as a source change *)

(** When the retry's reload timer fires, the controller's own write to
    [iframe.src] queues a record for the observer it registered on [src];
    the record is delivered in the same turn and runs [onSrcChange], so the
    turn ends with [retryCount] back at 0 and the controller not loaded. *)
Lemma retry_reload_resets_retryCount env w id d el :
  listening (page w) = true -> src_records (page w) = 0%nat ->
  iframe (this w) = Some el ->
  timers (page w) !! id = Some (d, CbRetryReload) ->
  let w' := deliver env (TimerFired id) w in
  retryCount (this w') = 0 /\ gameLoaded (this w') = false.
Proof.
  destruct w as [[fr ov gl rc mx lt ltd] [on tm nt sr sb bd nn lg]].
  cbn [this page listening src_records iframe timers].
  intros -> -> -> Hid. cbv zeta.
  remember (deliver env _ _) as w' eqn:Hrun.
  run_methods. rewrite Hid in Hrun. cbn in Hrun. run_methods.
  split_cases_in Hrun; subst w'; cbn; split; reflexivity.
Qed.

(** On the sample page: the wait expires (retry 1), then the reload timer
    fires and the counter is back at 0. *)
Lemma retry_reload_resets_retryCount_witness :
  let w1 := deliver sample_env (TimerFired 1) (constructor sample_doc) in
  let w2 := deliver sample_env (TimerFired 2) w1 in
  retryCount (this w1) = 1 /\ retryCount (this w2) = 0.
Proof.
  intros w1 w2. split; [reflexivity|].
  apply (retry_reload_resets_retryCount sample_env w1 2 2000
           (mkIframe "https://lovemoneygame.io/lovemoney.embed" true false));
    reflexivity.
Defined.

(** ** The theorems at work on the sample page *)

(** C2 for an origin that only starts like the embed's. *)
Lemma foreign_origin_ignored_witness :
  let w := constructor sample_doc in
  handleIframeMessage sample_env "https://lovemoneygame.io.example.net"
    (completion_payload "gameComplete") w = (Normal tt, w).
Proof.
  intros w.
  assert (Hne : "https://lovemoneygame.io.example.net" <> allowed_origin)
    by (apply String.eqb_neq; reflexivity).
  apply (proj1 (foreign_origin_ignored sample_env _ _ w Hne)).
Defined.

(** C3 after a [gameLoaded] message has loaded the sample page. *)
Lemma success_signal_idempotent_witness :
  let w := succeed sample_env EmbedLoaded (constructor sample_doc) in
  onGameLoadSuccess sample_env w = (Normal tt, w).
Proof.
  intros w.
  assert (Hloaded : gameLoaded (this w) = true) by (vm_compute; reflexivity).
  pose proof (proj1 (success_signal_idempotent sample_env w) Hloaded) as (H & _).
  exact H.
Defined.

(** C4 as stated fails: the tag as the claim writes it is not one the
    controller knows, so the message is logged as unknown and no completion
    modal appears. *)
Lemma capitalised_GameComplete_ignored :
  let w := constructor sample_doc in
  let w' := snd (handleIframeMessage sample_env allowed_origin
                   (completion_payload "GameComplete") w) in
  body (page w') = []
  /\ log (page w')
     = [ConsoleLogValue "Unknown message from game:" (completion_payload "GameComplete")].
Proof. vm_compute. split; reflexivity. Qed.

(** C4 with the tag [gameComplete] on the sample page. *)
Lemma gameComplete_notifies_once_witness :
  body (page (snd (handleIframeMessage sample_env allowed_origin
                     (completion_payload "gameComplete") (constructor sample_doc))))
  = [(1%positive, CompletionModal "High Morality" "25000")].
Proof.
  assert (Hcalm : calm sample_env) by (intros app [= <-]; split; reflexivity).
  apply (proj1 (gameComplete_notifies_once sample_env (constructor sample_doc) Hcalm)).
Defined.



(** C6 after the first wait has expired on the sample page. *)
Lemma one_pending_load_timeout_witness :
  let w := deliver sample_env (TimerFired 1) (constructor sample_doc) in
  (size (load_timers w) <= 1)%nat.
Proof.
  intros w.
  assert (Hreach : reachable sample_env w)
    by apply reachable_deliver, reachable_new.
  exact (proj1 (one_pending_load_timeout sample_env w Hreach)).
Defined.

(** C8 with every test reporting support. *)
Lemma browser_weight_counted_twice_witness :
  CompatibilityTester.calculateCompatibilityScore CompatibilityTester.all_supported
  = 130.
Proof.
  destruct (browser_weight_counted_twice CompatibilityTester.all_supported)
    as [_ H].
  destruct H as (_ & _ & _ & Hall); [reflexivity|].
  apply Hall. repeat constructor.
Defined.


(** * Further properties of the code *)

(** ** Retries that never reach the bound *)

Lemma timers_wf_deliver env ev w : timers_wf w -> timers_wf (deliver env ev w).
Proof.
  intros Hwf. apply (stable_task env _ timers_wf_stable); [|exact Hwf].
  apply (stable_dispatch env _ timers_wf_stable).
Qed.

(** Settle the collaborator's calls under [calm], in the equation [H] of a run. *)
Ltac settle_calm H env Hq :=
  let Happ := fresh "Happ" in
  destruct (loveMoneyApp env) as [?app|] eqn:Happ;
  [ let Ht := fresh "Ht" in
    let Hu := fresh "Hu" in
    destruct (Hq _ eq_refl) as [Ht Hu];
    do 6 (cbn in H; run_methods; rewrite ?Happ, ?Ht, ?Hu in H)
  | do 3 (cbn in H; run_methods; rewrite ?Happ in H) ].

Section RetryCycle.
Context (env : Env) (Hq : calm env).

(** The wait expires with the counter at 0: retry 1 of 3 is announced and
    the reload is scheduled. *)
Lemma cycle_wait_expires el ov ltd on tm nt sb bd nn lg wait d :
  tm !! wait = Some (d, CbLoadTimeout) ->
  exists ov1 lg1,
    deliver env (TimerFired wait)
      (mkWorld (mkHandler (Some el) ov false 0 3 (Some wait) ltd)
               (mkBrowser on tm nt 0%nat sb bd nn lg))
    = mkWorld (mkHandler (Some el) ov1 false 1 3 (Some wait) ltd)
        (mkBrowser on (<[nt := (2000, CbRetryReload)]> (delete wait tm))
           (Pos.succ nt) 0%nat sb bd nn lg1)
    /\ (ov = None <-> ov1 = None)
    /\ List.filter is_console_log lg1
       = List.filter is_console_log lg ++ [ConsoleLog (retry_message 1 3)].
Proof.
  intros Hwait. remember (deliver _ _ _) as w1 eqn:H.
  run_methods. rewrite Hwait in H. unfold calm in Hq.
  destruct ov; settle_calm H env Hq; subst w1;
    do 2 eexists; (split; [reflexivity|]); (split; [done|]);
    rewrite ?List.filter_app; cbn; by rewrite ?app_nil_r.
Qed.

(** The reload timer fires: the frame's [src] is emptied, the observer
    reports it, and [onSrcChange] starts over. *)
Lemma cycle_reload el ov rc lt ltd tm nt sb bd nn lg reload d :
  tm !! reload = Some (d, CbRetryReload) ->
  exists ov2 lg2,
    deliver env (TimerFired reload)
      (mkWorld (mkHandler (Some el) ov false rc 3 lt ltd)
               (mkBrowser true tm nt 0%nat sb bd nn lg))
    = mkWorld (mkHandler (Some (mkIframe "" true false)) ov2 false 0 3
                 (Some (Pos.succ nt)) ltd)
        (mkBrowser true
           (<[Pos.succ nt := (ltd, CbLoadTimeout)]>
              (match lt with
               | Some id => delete id
               | None => fun m => m
               end (<[nt := (100, CbRetryRestore (src el))]> (delete reload tm))))
           (Pos.succ (Pos.succ nt)) 0%nat sb bd nn lg2)
    /\ (ov = None <-> ov2 = None)
    /\ (ov2 = None \/ option_map content ov2 = Some LoadingContent)
    /\ List.filter is_console_log lg2 = List.filter is_console_log lg.
Proof.
  intros Hid. remember (deliver _ _ _) as w2 eqn:H.
  run_methods. rewrite Hid in H. cbn in H. run_methods. unfold calm in Hq.
  destruct ov, lt; settle_calm H env Hq; subst w2;
    do 2 eexists; (split; [reflexivity|]); (split; [done|]);
    (split; [auto|]); rewrite ?List.filter_app; cbn; by rewrite ?app_nil_r.
Qed.

(** The restore timer fires: [src] is set back, a wait is armed, the
    observer reports the write and [onSrcChange] arms the wait again. *)
Lemma cycle_restore el ov rc lt ltd tm nt sb bd nn lg restore d s :
  tm !! restore = Some (d, CbRetryRestore s) ->
  exists ov3 lg3,
    deliver env (TimerFired restore)
      (mkWorld (mkHandler (Some el) ov false rc 3 lt ltd)
               (mkBrowser true tm nt 0%nat sb bd nn lg))
    = mkWorld (mkHandler (Some (mkIframe s true false)) ov3 false 0 3
                 (Some (Pos.succ nt)) ltd)
        (mkBrowser true
           (<[Pos.succ nt := (ltd, CbLoadTimeout)]>
              (delete nt
                 (<[nt := (ltd, CbLoadTimeout)]>
                    (match lt with
                     | Some id => delete id
                     | None => fun m => m
                     end (delete restore tm)))))
           (Pos.succ (Pos.succ nt)) 0%nat sb bd nn lg3)
    /\ (ov = None <-> ov3 = None)
    /\ (ov3 = None \/ option_map content ov3 = Some LoadingContent)
    /\ List.filter is_console_log lg3 = List.filter is_console_log lg.
Proof.
  intros Hid. remember (deliver _ _ _) as w3 eqn:H.
  run_methods. rewrite Hid in H. cbn in H. run_methods. unfold calm in Hq.
  destruct ov, lt; settle_calm H env Hq; subst w3;
    do 2 eexists; (split; [reflexivity|]); (split; [done|]);
    (split; [auto|]); rewrite ?List.filter_app; cbn; by rewrite ?app_nil_r.
Qed.

End RetryCycle.

Lemma run_cons env ev evs w : run env (ev :: evs) w = run env evs (deliver env ev w).
Proof. reflexivity. Qed.

Lemma timers_wf_run env evs w : timers_wf w -> timers_wf (run env evs w).
Proof.
  revert w. induction evs as [|ev evs IH]; intros w Hwf; [exact Hwf|].
  rewrite run_cons. apply IH, timers_wf_deliver, Hwf.
Qed.

Lemma retry_cycle_waiting env embed w :
  calm env -> waiting embed w ->
  waiting embed (retry_cycle env w)
  /\ console_logs (retry_cycle env w)
     = console_logs w ++ [ConsoleLog (retry_message 1 3)].
Proof.
  intros Hq (Hon & Hrec & Hgl & Hrc & Hmax & (el & Hel & Hsrc) & (wait & d & Hlt & Hwait) & _ & Hwf).
  assert (Hwf' : timers_wf (retry_cycle env w)).
  { unfold retry_cycle. rewrite Hlt. by apply timers_wf_run. }
  destruct Hwf as [Hbelow _].
  revert Hwf'. unfold retry_cycle. rewrite Hlt.
  destruct w as [[fr ov gl rc mx lt ltd] [on tm nt recs sb bd nn lg]].
  cbn in Hon, Hrec, Hgl, Hrc, Hmax, Hel, Hlt, Hwait, Hbelow. subst.
  pose proof (Hbelow _ _ Hwait) as Hlt_nt.
  cbn [next_timer page]. unfold run. cbn [fold_left].
  destruct (cycle_wait_expires env Hq el ov ltd true tm nt sb bd nn lg wait d Hwait)
    as (ov1 & lg1 & -> & Hov1 & Hlg1).
  set (tm1 := <[nt := (2000, CbRetryReload)]> (delete wait tm)).
  assert (H1 : tm1 !! nt = Some (2000, CbRetryReload)) by apply lookup_insert_eq.
  destruct (cycle_reload env Hq el ov1 1 (Some wait) ltd tm1 (Pos.succ nt) sb bd nn lg1 nt _ H1)
    as (ov2 & lg2 & -> & Hov2 & Hc2 & Hlg2).
  set (tm2 := <[Pos.succ (Pos.succ nt) := (ltd, CbLoadTimeout)]> _).
  assert (H2 : tm2 !! Pos.succ nt = Some (100, CbRetryRestore (src el))).
  { unfold tm2. rewrite lookup_insert_ne by lia.
    rewrite lookup_delete_ne by lia. apply lookup_insert_eq. }
  destruct (cycle_restore env Hq (mkIframe "" true false) ov2 0
              (Some (Pos.succ (Pos.succ nt))) ltd tm2 (Pos.succ (Pos.succ (Pos.succ nt)))
              sb bd nn lg2 (Pos.succ nt) _ (src el) H2)
    as (ov3 & lg3 & -> & Hov3 & Hc3 & Hlg3).
  cbn. intros Hwf'. split.
  - repeat split; try done.
    + by exists (mkIframe (src el) true false).
    + do 2 eexists. split; [reflexivity|]. cbn. apply lookup_insert_eq.
    + unfold failed. cbn. destruct Hc3 as [->|Hc3]; [done|].
      destruct ov3 as [[h c]|]; [|done]. cbn in Hc3. by injection Hc3 as ->.
    + apply Hwf'.
    + apply Hwf'.
  - unfold console_logs. cbn. by rewrite Hlg3, Hlg2, Hlg1.
Qed.

(** However many times the bounded wait expires, the handler is back in
    its first waiting state after each retry: the terminal error display is
    never reached, and every retry is announced as attempt 1 of 3. *)
Theorem timeouts_alone_never_fail env embed w (k : nat) :
  calm env -> waiting embed w ->
  let w' := Nat.iter k (retry_cycle env) w in
  waiting embed w'
  /\ failed w' = false
  /\ retryCount (this w') = 0
  /\ console_logs w' = console_logs w ++ repeat (ConsoleLog (retry_message 1 3)) k.
Proof.
  intros Hq Hw. cbn zeta.
  assert (H : waiting embed (Nat.iter k (retry_cycle env) w)
              /\ console_logs (Nat.iter k (retry_cycle env) w)
                 = console_logs w ++ repeat (ConsoleLog (retry_message 1 3)) k).
  { induction k as [|k [IHw IHlog]].
    - cbn. by rewrite app_nil_r.
    - rewrite Nat.iter_succ. destruct (retry_cycle_waiting env embed _ Hq IHw) as [Hw' Hlog].
      split; [exact Hw'|]. rewrite Hlog, IHlog, <- app_assoc. f_equal.
      change [ConsoleLog (retry_message 1 3)] with (repeat (ConsoleLog (retry_message 1 3)) 1).
      rewrite <- repeat_app. f_equal. lia. }
  destruct H as [Hk Hlog]. split; [exact Hk|]. split; [|split; [|exact Hlog]]; apply Hk.
Qed.

Lemma timeouts_alone_never_fail_witness :
  let w := constructor sample_doc in
  let w' := Nat.iter 4 (retry_cycle sample_env) w in
  waiting "https://lovemoneygame.io/lovemoney.embed" w'
  /\ failed w' = false
  /\ retryCount (this w') = 0
  /\ console_logs w' = console_logs w ++ repeat (ConsoleLog (retry_message 1 3)) 4.
Proof.
  assert (Hq : calm sample_env).
  { intros app [= <-]. by split. }
  assert (Hw : waiting "https://lovemoneygame.io/lovemoney.embed" (constructor sample_doc)).
  { repeat split; try reflexivity.
    - by eexists.
    - exists 1%positive, 30000. by split.
    - apply timers_wf_constructor.
    - apply timers_wf_constructor. }
  exact (timeouts_alone_never_fail sample_env _ _ 4%nat Hq Hw).
Defined.

(** ** Starting over by hand *)

Lemma timers_wf_exactly_one w id d :
  timers_wf w -> timers (page w) !! id = Some (d, CbLoadTimeout) ->
  load_timers w = {[ id := (d, CbLoadTimeout) ]}.
Proof.
  intros [_ H2] Hin. apply map_eq. intros j.
  destruct (decide (j = id)) as [->|Hj].
  - rewrite lookup_singleton_eq. unfold load_timers.
    by apply map_lookup_filter_Some.
  - rewrite lookup_singleton_ne by done.
    destruct (load_timers w !! j) as [[d' cb']|] eqn:E; [|done].
    apply map_lookup_filter_Some in E as [Hin' Hcb']. cbn in Hcb'. subst cb'.
    pose proof (H2 _ _ Hin). pose proof (H2 _ _ Hin'). congruence.
Qed.

Lemma forceReload_run env now el ov gl rc mx lt ltd on tm nt sb bd nn lg :
  calm env ->
  exists id tm' nt' ov' lg',
    deliver env (ForceReloadClicked now)
      (mkWorld (mkHandler (Some el) ov gl rc mx lt ltd)
               (mkBrowser on tm nt 0%nat sb bd nn lg))
    = mkWorld (mkHandler
                 (Some (mkIframe ("https://lovemoneygame.io/lovemoney.embed"
                                  +:+ "?t=" +:+ pretty now) true false))
                 ov' false 0 mx (Some id) ltd)
        (mkBrowser on tm' nt' 0%nat sb bd nn lg')
    /\ tm' !! id = Some (ltd, CbLoadTimeout)
    /\ (ov' = None \/ option_map content ov' = Some LoadingContent)
    /\ List.filter is_console_log lg' = List.filter is_console_log lg.
Proof.
  intros Hq. remember (deliver _ _ _) as w' eqn:H.
  run_methods. unfold calm in Hq.
  destruct ov, lt, on; settle_calm H env Hq; subst w';
    do 5 eexists; (split; [reflexivity|]); (split; [apply lookup_insert_eq|]);
    (split; [auto|]); rewrite ?List.filter_app; cbn; by rewrite ?app_nil_r.
Qed.

(** [forceReload] starts the load over from any state, the terminal error
    display included: after the click's turn the controller is not loaded,
    its counter is 0, the frame points at the embed with the cache-busting
    stamp, the overlay no longer shows the error, and exactly one bounded
    wait is pending, the one [this.loadTimeout] names. *)
Theorem forceReload_restarts env now w el :
  calm env -> timers_wf w -> src_records (page w) = 0%nat ->
  iframe (this w) = Some el ->
  let w' := deliver env (ForceReloadClicked now) w in
  gameLoaded (this w') = false
  /\ retryCount (this w') = 0
  /\ failed w' = false
  /\ option_map src (iframe (this w'))
     = Some ("https://lovemoneygame.io/lovemoney.embed?t=" +:+ pretty now)
  /\ (exists id, loadTimeout (this w') = Some id
                 /\ load_timers w'
                    = {[ id := (loadTimeoutDuration (this w), CbLoadTimeout) ]})
  /\ console_logs w' = console_logs w.
Proof.
  intros Hq Hwf Hrec Hel. cbv zeta.
  pose proof (timers_wf_deliver env (ForceReloadClicked now) w Hwf) as Hwf'.
  destruct w as [[fr ov gl rc mx lt ltd] [on tm nt recs sb bd nn lg]].
  cbn in Hrec, Hel. subst.
  destruct (forceReload_run env now el ov gl rc mx lt ltd on tm nt sb bd nn lg Hq)
    as (id & tm' & nt' & ov' & lg' & Hrun & Hid & Hov & Hlog).
  rewrite Hrun in *. cbn [this page gameLoaded retryCount iframe loadTimeout
                          loadTimeoutDuration option_map src].
  repeat split; try done.
  - unfold failed. cbn. destruct Hov as [->|Hov]; [done|].
    destruct ov' as [[h c]|]; [|done]. cbn in Hov. by injection Hov as ->.
  - exists id. split; [done|]. by apply timers_wf_exactly_one.
Qed.

(** ** Messages the controller does not understand *)

(** A message of the embed that cannot be decoded, or whose payload has no
    readable [type] ([null], [undefined]), is dropped: the error is written
    to the console and nothing else changes: no counter, no timer, no
    overlay, no collaborator call. *)
Theorem undecodable_message_only_logged env event_data w :
  listening (page w) = true -> src_records (page w) = 0%nat ->
  (forall data, decoded env event_data = Some data ->
                exists e, Js.get data "type" = inl e) ->
  exists e,
    deliver env (Message allowed_origin event_data) w
    = log_line (ConsoleLogExn "Error parsing message from game:" e) w.
Proof.
  destruct w as [[fr ov gl rc mx lt ltd] [on tm nt recs sb bd nn lg]].
  cbn [page listening src_records]. intros -> -> Hd.
  unfold log_line. remember (deliver _ _ _) as w' eqn:H.
  run_methods.
  destruct event_data as [| |b|n|text|fields|items]; cbn in Hd, H;
    try (subst w'; eexists; reflexivity);
    try (destruct (Hd _ eq_refl) as (e & He); discriminate He).
  destruct (JSON_parse env text) as [data|]; cbn in H;
    [|subst w'; eexists; reflexivity].
  destruct (Hd data eq_refl) as (e & He).
  destruct data; try discriminate He; cbn in H; subst w'; eexists; reflexivity.
Qed.

Lemma handleIframeMessage_unknown env event_data data ty w :
  decoded env event_data = Some data ->
  Js.get data "type" = inr ty ->
  Forall (fun literal => is_case ty literal = false)
    ["gameLoaded"; "gameError"; "gameProgress"; "gameComplete"] ->
  handleIframeMessage env allowed_origin event_data w
  = emit (ConsoleLogValue "Unknown message from game:" data) w.
Proof.
  intros Hd Hty Hcases.
  repeat (apply Forall_cons in Hcases as [?Hcase Hcases]).
  unfold handleIframeMessage, allowed_origin.
  rewrite String.eqb_refl. cbn [negb].
  assert (Hdec : match event_data with
                 | Js.Str text =>
                     match JSON_parse env text with
                     | Some v => mret v
                     | None => throw (Js.SyntaxError "JSON.parse")
                     end
                 | _ => mret event_data
                 end = (mret data : M Js.value)).
  { destruct event_data; cbn in Hd; try (injection Hd as ->; reflexivity).
    by rewrite Hd. }
  rewrite Hdec. unfold try_catch, prop, mbind, mret, M_bind, M_ret.
  rewrite Hty, Hcase, Hcase0, Hcase1, Hcase2. reflexivity.
Qed.

(** A decoded message whose [type] is none of the four the [switch] names
    falls to [default]: it is written to the console as unknown and nothing
    else changes. *)
Theorem unknown_message_only_logged env event_data data ty w :
  listening (page w) = true -> src_records (page w) = 0%nat ->
  decoded env event_data = Some data ->
  Js.get data "type" = inr ty ->
  Forall (fun literal => is_case ty literal = false)
    ["gameLoaded"; "gameError"; "gameProgress"; "gameComplete"] ->
  deliver env (Message allowed_origin event_data) w
  = log_line (ConsoleLogValue "Unknown message from game:" data) w.
Proof.
  intros Hon Hrec Hd Hty Hcases.
  unfold deliver, task, report, observer_callback, dispatch.
  unfold mbind, M_bind, try_catch, gets. rewrite Hon.
  rewrite (handleIframeMessage_unknown env event_data data ty w Hd Hty Hcases).
  destruct w as [[fr ov gl rc mx lt ltd] [on tm nt recs sb bd nn lg]].
  cbn in Hrec. subst recs. reflexivity.
Qed.

(** ** A wait that outlives the success *)

Lemma late_wait_ignored env w id d :
  gameLoaded (this w) = true -> src_records (page w) = 0%nat ->
  timers (page w) !! id = Some (d, CbLoadTimeout) ->
  deliver env (TimerFired id) w = drop_timer id w.
Proof.
  destruct w as [[fr ov gl rc mx lt ltd] [on tm nt recs sb bd nn lg]].
  cbn [this page gameLoaded src_records timers]. intros -> -> Hid.
  unfold drop_timer. remember (deliver _ _ _) as w' eqn:H.
  run_methods. rewrite Hid in H. cbn in H. by subst w'.
Qed.

Lemma embed_success_keeps_timers env fr ov rc mx lt ltd on tm nt sb bd nn lg :
  exists h b,
    succeed env EmbedLoaded
      (mkWorld (mkHandler fr ov false rc mx lt ltd)
               (mkBrowser on tm nt 0%nat sb bd nn lg))
    = mkWorld h b
    /\ gameLoaded h = true /\ src_records b = 0%nat
    /\ forall i, (i < nt)%positive -> timers b !! i = tm !! i.
Proof.
  remember (succeed _ _ _) as w' eqn:H.
  run_methods. split_cases_in H; subst w'; do 2 eexists;
    (split; [reflexivity|]); cbn; (split; [done|]); (split; [done|]);
    intros j Hj; rewrite ?lookup_insert_ne by lia; reflexivity.
Qed.

(** A [gameLoaded] message of the embed does not cancel the bounded wait
    (only the frame's own [load] event does): the wait stays pending, and
    when it expires after the success it changes nothing: no retry, no
    error display, no call to the collaborator. *)
Theorem wait_outlives_embed_success env w id d :
  timers_wf w -> src_records (page w) = 0%nat ->
  gameLoaded (this w) = false ->
  timers (page w) !! id = Some (d, CbLoadTimeout) ->
  let w1 := succeed env EmbedLoaded w in
  gameLoaded (this w1) = true
  /\ timers (page w1) !! id = Some (d, CbLoadTimeout)
  /\ deliver env (TimerFired id) w1 = drop_timer id w1.
Proof.
  intros [Hbelow _] Hrec Hgl Hid. cbv zeta.
  destruct w as [[fr ov gl rc mx lt ltd] [on tm nt recs sb bd nn lg]].
  cbn in Hrec, Hgl, Hid, Hbelow. subst.
  destruct (embed_success_keeps_timers env fr ov rc mx lt ltd on tm nt sb bd nn lg)
    as (h & b & -> & Hl & Hr & Hsame).
  assert (Hid' : timers b !! id = Some (d, CbLoadTimeout)).
  { rewrite Hsame; [exact Hid|]. by eapply Hbelow. }
  split; [exact Hl|]. split; [exact Hid'|].
  by eapply late_wait_ignored.
Qed.

(** ** A native load *)



(** ** The completion modal *)






(** *** On the sample page *)

Lemma calm_sample_env : calm sample_env.
Proof. intros app [= <-]. by split. Qed.

(** Four failures in a row end in the error display; the click starts over. *)
Lemma forceReload_restarts_witness :
  let w := fail_all sample_env [NativeError; WaitExpired; NativeError; NativeError]
             (constructor sample_doc) in
  let w' := deliver sample_env (ForceReloadClicked 1700000000000) w in
  failed w = true
  /\ gameLoaded (this w') = false
  /\ retryCount (this w') = 0
  /\ failed w' = false
  /\ option_map src (iframe (this w'))
     = Some ("https://lovemoneygame.io/lovemoney.embed?t=" +:+ pretty 1700000000000)
  /\ (exists id, loadTimeout (this w') = Some id
                 /\ load_timers w'
                    = {[ id := (loadTimeoutDuration (this w), CbLoadTimeout) ]})
  /\ console_logs w' = console_logs w.
Proof.
  intros w w'.
  assert (Hwf : timers_wf w).
  { unfold w, fail_all. cbn [fold_left].
    repeat (apply (stable_task sample_env _ timers_wf_stable);
            [apply (stable_on_failure sample_env _ timers_wf_stable)|]).
    apply timers_wf_constructor. }
  assert (Hrec : src_records (page w) = 0%nat) by (vm_compute; reflexivity).
  assert (Hel : iframe (this w)
                = Some (mkIframe "https://lovemoneygame.io/lovemoney.embed" true false))
    by (vm_compute; reflexivity).
  assert (Hfailed : failed w = true) by (vm_compute; reflexivity).
  split; [exact Hfailed|].
  exact (forceReload_restarts sample_env 1700000000000 w _ calm_sample_env Hwf Hrec Hel).
Defined.

Lemma undecodable_message_only_logged_witness :
  exists e,
    deliver sample_env (Message allowed_origin (Js.Str "{not json")) (constructor sample_doc)
    = log_line (ConsoleLogExn "Error parsing message from game:" e)
        (constructor sample_doc).
Proof.
  apply (undecodable_message_only_logged sample_env (Js.Str "{not json")
           (constructor sample_doc)); [reflexivity|reflexivity|].
  intros data Hd. discriminate Hd.
Defined.

Lemma unknown_message_only_logged_witness :
  let data := Js.Obj [("type", Js.Str "GameLoaded")] in
  deliver sample_env (Message allowed_origin data) (constructor sample_doc)
  = log_line (ConsoleLogValue "Unknown message from game:" data) (constructor sample_doc).
Proof.
  intros data.
  apply (unknown_message_only_logged sample_env data data (Js.Str "GameLoaded")
           (constructor sample_doc)); try reflexivity.
  repeat constructor.
Defined.

Lemma wait_outlives_embed_success_witness :
  let w := constructor sample_doc in
  let w1 := succeed sample_env EmbedLoaded w in
  gameLoaded (this w1) = true
  /\ timers (page w1) !! 1%positive = Some (30000, CbLoadTimeout)
  /\ deliver sample_env (TimerFired 1) w1 = drop_timer 1 w1.
Proof.
  intros w.
  exact (wait_outlives_embed_success sample_env w 1%positive 30000
           (timers_wf_constructor sample_doc) eq_refl eq_refl eq_refl).
Defined.



(** ** The calculator's strategies *)

Section Strategies.
Import GuideController.

Lemma moral_penalty_level fuel startUpgrade :
  (7 <= fuel)%nat -> 0 <= startUpgrade <= 6 ->
  moral_penalty fuel upgrades_table 1 startUpgrade 100
  = Some (inr (level_moral startUpgrade)).
Proof.
  intros Hfuel Hs.
  do 7 (destruct fuel as [|fuel]; [lia|]). clear Hfuel.
  assert (startUpgrade = 0 \/ startUpgrade = 1 \/ startUpgrade = 2
          \/ startUpgrade = 3 \/ startUpgrade = 4 \/ startUpgrade = 5
          \/ startUpgrade = 6) as Hcases by lia.
  repeat (destruct Hcases as [->|Hcases]); [..|subst startUpgrade]; reflexivity.
Qed.

Lemma level_moral_next level u :
  0 <= level -> at_index upgrades_table (level + 1) = Some u ->
  level_moral (level + 1) = level_moral level + moral u.
Proof.
  intros Hl Hu.
  destruct (at_index_table (level + 1)) as [_ Hout].
  assert (level + 1 <= 6).
  { destruct (decide (level + 1 <= 6)); [done|]. rewrite Hout in Hu by lia. done. }
  assert (level = 0 \/ level = 1 \/ level = 2 \/ level = 3 \/ level = 4
          \/ level = 5) as Hcases by lia.
  repeat (destruct Hcases as [->|Hcases]); [..|subst level];
    cbn in Hu; injection Hu as <-; reflexivity.
Qed.

Lemma level_steps_next from level u :
  from <= level -> at_index upgrades_table (level + 1) = Some u ->
  level_steps from (level + 1)
  = level_steps from level
    ++ [mkPathStep (name u) (cost u) (moral u) (level_moral (level + 1))].
Proof.
  intros Hl Hu. unfold level_steps.
  replace (Z.to_nat (level + 1 - from)) with (S (Z.to_nat (level - from))) by lia.
  rewrite seq_S, flat_map_app. cbn [flat_map]. rewrite app_nil_r.
  replace (from + 1 + Z.of_nat (0 + Z.to_nat (level - from))) with (level + 1) by lia.
  by rewrite Hu.
Qed.

Lemma level_steps_length from upto :
  0 <= from <= upto -> upto <= 6 ->
  Z.of_nat (length (level_steps from upto)) = upto - from.
Proof.
  intros Hf Hu. unfold level_steps.
  set (f := fun k : nat => _).
  assert (Hlen : forall l : list nat,
             Forall (fun k => (from + 1 + Z.of_nat k <= 6)) l ->
             length (flat_map f l) = length l).
  { induction 1 as [|k l Hk _ IH]; [done|].
    change (flat_map f (k :: l)) with (f k ++ flat_map f l).
    rewrite length_app, IH. unfold f. cbv zeta.
    destruct (at_index_table (from + 1 + Z.of_nat k)) as [Hin _].
    destruct Hin as (u & -> & _); [lia|]. reflexivity. }
  rewrite Hlen.
  - rewrite length_seq. lia.
  - apply Forall_forall. intros k Hk. apply elem_of_seq in Hk. lia.
Qed.

Lemma ceil_div_positive a b : 0 < a -> 0 < b -> 0 < Js.ceil_div a b.
Proof.
  intros Ha Hb. pose proof (ceil_div_covers a b Hb). nia.
Qed.

Lemma loop_body_on_track target startMoney startUpgrade maxUpgrade v :
  0 <= startUpgrade -> money v < target ->
  on_track startMoney startUpgrade maxUpgrade v ->
  match loop_body target maxUpgrade upgrades_table v with
  | Next v' =>
      on_track startMoney startUpgrade maxUpgrade v'
      /\ currentUpgrade v' = currentUpgrade v + 1
      /\ clicks v <= clicks v'
  | Break v' =>
      on_track startMoney startUpgrade maxUpgrade v'
      /\ money v' = target /\ 0 < clicks v'
  | Raise _ => False
  end.
Proof.
  intros Hs Hmoney (Hc & Hmax & Hmoral & Hsteps & Hclicks). unfold loop_body.
  destruct (at_index_table (currentUpgrade v)) as [Hin _].
  destruct Hin as (cur & -> & Hearn); [lia|].
  change (Z.of_nat (length upgrades_table) - 1) with 6.
  destruct (Z.ltb_spec (currentUpgrade v) maxUpgrade) as [Hlt|Hge]; cbn [andb].
  2: { pose proof (ceil_div_positive (target - money v) (earnings cur)
                     ltac:(lia) Hearn).
       cbn. unfold on_track. cbn. repeat split; try done; try lia. }
  destruct (Z.ltb_spec (currentUpgrade v) 6) as [Hlt6|Hge6].
  2: { pose proof (ceil_div_positive (target - money v) (earnings cur)
                     ltac:(lia) Hearn).
       cbn. unfold on_track. cbn. repeat split; try done; try lia. }
  destruct (at_index_table (currentUpgrade v + 1)) as [Hin _].
  destruct Hin as (next & Hnext & _); [lia|]. rewrite Hnext.
  pose proof (level_moral_next (currentUpgrade v) next ltac:(lia) Hnext) as Hm.
  pose proof (level_steps_next startUpgrade (currentUpgrade v) next ltac:(lia) Hnext)
    as Hst.
  destruct (Z.ltb_spec 0 (cost next - money v)) as [Hneed|Hhave]; cbn.
  - pose proof (ceil_div_covers (cost next - money v) (earnings cur) Hearn).
    pose proof (ceil_div_positive (cost next - money v) (earnings cur) Hneed Hearn).
    destruct (Z.leb_spec (cost next) (money v +
        Js.ceil_div (cost next - money v) (earnings cur) * earnings cur));
      [|lia].
    unfold on_track. cbn. rewrite Hmoral, Hsteps, Hst, Hm.
    repeat split; try done; try lia.
  - destruct (Z.leb_spec (cost next) (money v)); [|lia].
    unfold on_track. cbn. rewrite Hmoral, Hsteps, Hst, Hm.
    repeat split; try done; try lia.
Qed.

Lemma while_loop_on_track fuel target startMoney startUpgrade maxUpgrade v :
  0 <= startUpgrade ->
  on_track startMoney startUpgrade maxUpgrade v ->
  (Z.to_nat (7 - currentUpgrade v) <= fuel)%nat ->
  exists v',
    while_loop fuel target maxUpgrade upgrades_table v = Some (inr v')
    /\ on_track startMoney startUpgrade maxUpgrade v'
    /\ target <= money v'
    /\ (target <= money v -> v' = v)
    /\ (money v < target -> 0 < clicks v').
Proof.
  intros Hs. revert v. induction fuel as [|fuel IH]; intros v Hv Hfuel.
  { destruct Hv as (Hc & _). lia. }
  cbn [while_loop].
  destruct (Z.ltb_spec (money v) target) as [Hlt|Hge]; cbn [andb].
  2: { eexists. split; [reflexivity|]. split; [exact Hv|]. repeat split; [lia|lia]. }
  destruct (Z.leb_spec (currentUpgrade v) maxUpgrade) as [Hle|Hgt].
  2: { destruct Hv as (_ & Hmax & _). lia. }
  pose proof (loop_body_on_track target startMoney startUpgrade maxUpgrade v
                Hs Hlt Hv) as Hstep.
  destruct (loop_body target maxUpgrade upgrades_table v) as [v'|v'|e]; [| |done].
  - destruct Hstep as (Hv' & Hinc & Hmono).
    destruct (IH v' Hv') as (v'' & Hrun & Hv'' & Hreach & Hsame & Hpos).
    { destruct Hv' as (Hc & _). lia. }
    exists v''. split; [exact Hrun|]. split; [exact Hv''|].
    split; [exact Hreach|]. split; [lia|]. intros _.
    destruct (Z.lt_ge_cases (money v') target) as [Hlt'|Hge']; [by apply Hpos|].
    rewrite (Hsame Hge').
    destruct Hv as (_ & _ & _ & _ & Hck). destruct Hv' as (_ & _ & _ & _ & Hck').
    destruct Hck' as [[Hm' Hz]|Hp]; [|exact Hp].
    destruct Hck as [[Hm0 _]|Hp]; lia.
  - destruct Hstep as (Hv' & Hm & Hpos). eexists. split; [reflexivity|].
    split; [exact Hv'|]. repeat split; [lia|lia|done].
Qed.

Lemma on_track_start startMoney startUpgrade maxUpgrade :
  0 <= startUpgrade <= 6 -> startUpgrade <= maxUpgrade ->
  on_track startMoney startUpgrade maxUpgrade
    (mkVars startMoney startUpgrade 0 (level_moral startUpgrade) []).
Proof.
  intros Hs Hmax. unfold on_track, level_steps. cbn. rewrite Z.sub_diag.
  repeat split; try lia.
Qed.

Lemma simulateUpgradePath_success
    (fuel : nat) (target startMoney startUpgrade maxUpgrade : Z) :
  (7 <= fuel)%nat -> 0 <= startUpgrade <= 6 -> startUpgrade <= maxUpgrade ->
  exists r,
    simulateUpgradePath fuel target startMoney startUpgrade maxUpgrade
      upgrades_table = Some (inr r)
    /\ success r = true.
Proof.
  intros Hfuel Hs Hmax. unfold simulateUpgradePath.
  rewrite moral_penalty_level by done.
  destruct (while_loop_on_track fuel target startMoney startUpgrade maxUpgrade
              (mkVars startMoney startUpgrade 0 (level_moral startUpgrade) []))
    as (v' & -> & _ & Hreach & _);
    [lia|by apply on_track_start|cbn; lia|].
  eexists. split; [reflexivity|]. cbn. by apply Z.leb_le.
Qed.

(** Every strategy [calculateOptimalPath] tries for a target and a starting
    amount that are integers the code's numbers are exact on is viable:
    started at a level of the table with a ceiling not below it,
    [simulateUpgradePath] returns with [success] true; its click count is
    never negative, and it is 0 exactly when the target was already reached
    at the start. *)
Theorem simulateUpgradePath_reaches_target
    (fuel : nat) (target startMoney startUpgrade maxUpgrade : Z) :
  exact_amount target -> exact_amount startMoney ->
  (7 <= fuel)%nat -> 0 <= startUpgrade <= 6 -> startUpgrade <= maxUpgrade ->
  exists r,
    simulateUpgradePath fuel target startMoney startUpgrade maxUpgrade
      upgrades_table = Some (inr r)
    /\ success r = true
    /\ 0 <= totalClicks r
    /\ (totalClicks r = 0 <-> target <= startMoney).
Proof.
  intros _ _ Hfuel Hs Hmax. unfold simulateUpgradePath.
  rewrite moral_penalty_level by done.
  destruct (while_loop_on_track fuel target startMoney startUpgrade maxUpgrade
              (mkVars startMoney startUpgrade 0 (level_moral startUpgrade) []))
    as (v' & -> & Hv' & Hreach & Hsame & Hpos);
    [lia|by apply on_track_start|cbn; lia|].
  cbn in Hsame, Hpos. eexists. split; [reflexivity|]. cbn.
  destruct Hv' as (_ & _ & _ & _ & Hck).
  split; [by apply Z.leb_le|]. split; [lia|]. split.
  - intros H0. destruct (Z.lt_ge_cases startMoney target) as [Hlt|Hge]; [|lia].
    specialize (Hpos Hlt). lia.
  - intros Hge. by rewrite (Hsame Hge).
Qed.

(** The path of a strategy is read off the table: it lists, in order, the
    upgrades from the level after the start to the level reached, which
    does not pass the ceiling; every entry carries the moral score held
    after it, and [finalMoral] is the score of the level reached: 100 and
    the [moral] of every upgrade held, so the ending is High Morality up
    to level 3, Medium at level 4 and Low beyond. *)
Theorem simulateUpgradePath_path_shape
    (fuel : nat) (target startMoney startUpgrade maxUpgrade : Z) :
  (7 <= fuel)%nat -> 0 <= startUpgrade <= 6 -> startUpgrade <= maxUpgrade ->
  exists r reached,
    simulateUpgradePath fuel target startMoney startUpgrade maxUpgrade
      upgrades_table = Some (inr r)
    /\ startUpgrade <= reached <= Z.min maxUpgrade 6
    /\ path r = level_steps startUpgrade reached
    /\ Z.of_nat (length (path r)) = reached - startUpgrade
    /\ finalMoral r = level_moral reached
    /\ endingType r
       = (if reached <=? 3 then "High Morality"
          else if reached =? 4 then "Medium Morality" else "Low Morality")
    /\ (target <= startMoney -> reached = startUpgrade).
Proof.
  intros Hfuel Hs Hmax. unfold simulateUpgradePath.
  rewrite moral_penalty_level by done.
  destruct (while_loop_on_track fuel target startMoney startUpgrade maxUpgrade
              (mkVars startMoney startUpgrade 0 (level_moral startUpgrade) []))
    as (v' & -> & Hv' & Hreach & Hsame & Hpos);
    [lia|by apply on_track_start|cbn; lia|].
  cbn in Hsame. destruct Hv' as (Hc & Hm & Hmoral & Hsteps & _).
  exists (mkSimResult (target <=? money v') (clicks v') (moralScore v') (steps v')
            (Js.round_div (clicks v') 10) (getEndingType (moralScore v'))),
         (currentUpgrade v').
  split; [reflexivity|]. cbn. split; [lia|]. split; [exact Hsteps|].
  split; [|split; [exact Hmoral|split]].
  - rewrite Hsteps. apply level_steps_length; lia.
  - rewrite Hmoral.
    assert (currentUpgrade v' = 0 \/ currentUpgrade v' = 1 \/ currentUpgrade v' = 2
            \/ currentUpgrade v' = 3 \/ currentUpgrade v' = 4
            \/ currentUpgrade v' = 5 \/ currentUpgrade v' = 6) as Hcases by lia.
    repeat (destruct Hcases as [->|Hcases]); [..|rewrite Hcases]; reflexivity.
  - intros Hge. by rewrite (Hsame Hge).
Qed.

(** The first strategy tried keeps the current upgrade: for a target and a
    starting amount that are integers the code's numbers are exact on, it
    buys nothing, and its clicks are the missing money over the current
    earnings, rounded up. *)
Theorem simulateUpgradePath_no_upgrade
    (fuel : nat) (target startMoney startUpgrade : Z) (cur : Upgrade) :
  exact_amount target -> exact_amount startMoney ->
  (7 <= fuel)%nat ->
  at_index upgrades_table startUpgrade = Some cur ->
  simulateUpgradePath fuel target startMoney startUpgrade startUpgrade
    upgrades_table
  = Some (inr
      (let clicks :=
         if startMoney <? target
         then Js.ceil_div (target - startMoney) (earnings cur) else 0 in
       mkSimResult true clicks (level_moral startUpgrade) []
         (Js.round_div clicks 10) (getEndingType (level_moral startUpgrade)))).
Proof.
  intros _ _ Hfuel Hcur.
  assert (Hs : 0 <= startUpgrade <= 6).
  { destruct (at_index_table startUpgrade) as [_ Hout].
    destruct (decide (0 <= startUpgrade <= 6)); [done|].
    rewrite Hout in Hcur by done. done. }
  unfold simulateUpgradePath. rewrite moral_penalty_level by done.
  destruct fuel as [|fuel]; [lia|]. cbn [while_loop money currentUpgrade].
  destruct (Z.ltb_spec startMoney target) as [Hlt|Hge]; cbn [andb].
  - rewrite (proj2 (Z.leb_le _ _) (Z.le_refl startUpgrade)).
    unfold loop_body. cbn [money currentUpgrade clicks moralScore steps].
    rewrite Hcur, Z.ltb_irrefl. cbn [andb money clicks moralScore steps].
    by rewrite Z.leb_refl.
  - cbn [money clicks moralScore steps].
    by rewrite (proj2 (Z.leb_le _ _) Hge).
Qed.

Lemma collect_paths_run fuel sim_fuel target current currentUpgrade maxUpgrade acc :
  (7 <= sim_fuel)%nat -> 0 <= currentUpgrade <= 6 ->
  currentUpgrade <= maxUpgrade <= 7 ->
  (Z.to_nat (7 - maxUpgrade) <= fuel)%nat ->
  exists paths,
    collect_paths fuel sim_fuel target current currentUpgrade maxUpgrade
      upgrades_table acc = Some (inr (acc ++ paths))
    /\ List.map (fun p => Some (inr p)) paths
       = List.map
           (fun k => simulateUpgradePath sim_fuel target current currentUpgrade
                       (maxUpgrade + Z.of_nat k) upgrades_table)
           (seq 0 (Z.to_nat (7 - maxUpgrade)))
    /\ Forall (fun p => success p = true) paths.
Proof.
  intros Hsim Hcu. revert maxUpgrade acc.
  induction fuel as [|fuel IH]; intros maxUpgrade acc Hmax Hfuel.
  - assert (maxUpgrade = 7) as -> by lia. exists []. cbn.
    rewrite app_nil_r. by repeat split.
  - cbn [collect_paths]. change (Z.of_nat (length upgrades_table)) with 7.
    destruct (Z.ltb_spec maxUpgrade 7) as [Hlt|Hge].
    + destruct (simulateUpgradePath_success sim_fuel target current
                  currentUpgrade maxUpgrade Hsim Hcu ltac:(lia))
        as (r & Hr & Hok).
      rewrite Hr, Hok.
      destruct (IH (maxUpgrade + 1) (acc ++ [r]) ltac:(lia) ltac:(lia))
        as (paths & -> & Hmap & Hall).
      exists (r :: paths). rewrite <- app_assoc. split; [reflexivity|]. split.
      * replace (Z.to_nat (7 - maxUpgrade)) with (S (Z.to_nat (7 - (maxUpgrade + 1))))
          by lia.
        cbn [seq List.map]. rewrite Z.add_0_r, Hr. f_equal.
        rewrite Hmap, <- seq_shift, List.map_map.
        apply List.map_ext. intros k. f_equal. lia.
      * by constructor.
    + assert (maxUpgrade = 7) as -> by lia. exists []. cbn.
      rewrite app_nil_r. by repeat split.
Qed.

(** [calculateOptimalPath] drops no strategy when the target and the
    current amount are integers the code's numbers are exact on: from a
    level of the table it collects one path for every ceiling from that
    level to the last, [7 - currentUpgrade] in all, each the result of
    [simulateUpgradePath] for its ceiling; from a level past the table the
    collection is empty. *)
Theorem calculateOptimalPath_collects_every_ceiling
    (fuel sim_fuel : nat) (target current currentUpgrade : Z) :
  exact_amount target -> exact_amount current ->
  (7 <= sim_fuel)%nat -> (7 <= fuel)%nat ->
  (0 <= currentUpgrade <= 6 ->
   exists paths,
     collect_paths fuel sim_fuel target current currentUpgrade currentUpgrade
       upgrades_table [] = Some (inr paths)
     /\ Z.of_nat (length paths) = 7 - currentUpgrade
     /\ Forall (fun p => success p = true) paths
     /\ List.map (fun p => Some (inr p)) paths
        = List.map
            (fun k => simulateUpgradePath sim_fuel target current currentUpgrade
                        (currentUpgrade + Z.of_nat k) upgrades_table)
            (seq 0 (Z.to_nat (7 - currentUpgrade))))
  /\ (7 <= currentUpgrade ->
      collect_paths fuel sim_fuel target current currentUpgrade currentUpgrade
        upgrades_table [] = Some (inr [])).
Proof.
  intros _ _ Hsim Hfuel. split.
  - intros Hcu.
    destruct (collect_paths_run fuel sim_fuel target current currentUpgrade
                currentUpgrade [] Hsim Hcu ltac:(lia) ltac:(lia))
      as (paths & Hrun & Hmap & Hall).
    exists paths. split; [exact Hrun|]. split; [|split; [exact Hall|exact Hmap]].
    apply (f_equal (@length _)) in Hmap.
    rewrite !length_map, length_seq in Hmap. lia.
  - intros Hcu. destruct fuel as [|fuel]; [lia|]. cbn [collect_paths].
    change (Z.of_nat (length upgrades_table)) with 7.
    destruct (Z.ltb_spec currentUpgrade 7); [lia|reflexivity].
Qed.

(** *** On the calculator's defaults: 25000 from nothing *)

Lemma simulateUpgradePath_reaches_target_witness :
  exists r,
    simulateUpgradePath 7 25000 0 0 6 upgrades_table = Some (inr r)
    /\ success r = true
    /\ 0 <= totalClicks r
    /\ (totalClicks r = 0 <-> 25000 <= 0).
Proof.
  apply (simulateUpgradePath_reaches_target 7 25000 0 0 6);
    unfold exact_amount; lia.
Defined.

Lemma simulateUpgradePath_path_shape_witness :
  exists r reached,
    simulateUpgradePath 7 25000 0 2 4 upgrades_table = Some (inr r)
    /\ 2 <= reached <= Z.min 4 6
    /\ path r = level_steps 2 reached
    /\ Z.of_nat (length (path r)) = reached - 2
    /\ finalMoral r = level_moral reached
    /\ endingType r
       = (if reached <=? 3 then "High Morality"
          else if reached =? 4 then "Medium Morality" else "Low Morality")
    /\ (25000 <= 0 -> reached = 2).
Proof.
  apply (simulateUpgradePath_path_shape 7 25000 0 2 4); lia.
Defined.

Lemma simulateUpgradePath_no_upgrade_witness :
  simulateUpgradePath 7 25000 0 3 3 upgrades_table
  = Some (inr (mkSimResult true 1667 65 [] 167 "High Morality")).
Proof.
  assert (Htarget : exact_amount 25000) by (unfold exact_amount; lia).
  assert (Hstart : exact_amount 0) by (unfold exact_amount; lia).
  exact (simulateUpgradePath_no_upgrade 7 25000 0 3 (mkUpgrade "Touch" 1500 15 (-20))
           Htarget Hstart (le_n 7) eq_refl).
Defined.

Lemma calculateOptimalPath_collects_every_ceiling_witness :
  (0 <= 2 <= 6 ->
   exists paths,
     collect_paths 7 7 25000 0 2 2 upgrades_table [] = Some (inr paths)
     /\ Z.of_nat (length paths) = 7 - 2
     /\ Forall (fun p => success p = true) paths
     /\ List.map (fun p => Some (inr p)) paths
        = List.map
            (fun k => simulateUpgradePath 7 25000 0 2 (2 + Z.of_nat k) upgrades_table)
            (seq 0 (Z.to_nat (7 - 2))))
  /\ (7 <= 2 ->
      collect_paths 7 7 25000 0 2 2 upgrades_table [] = Some (inr [])).
Proof.
  apply (calculateOptimalPath_collects_every_ceiling 7 7 25000 0 2);
    unfold exact_amount; lia.
Defined.

End Strategies.

(** ** What the search returns *)

Section SearchResults.
Import GuideController.

Lemma searchContent_matches searchIndex query :
  searchContent searchIndex query
  = firstn 8 (sort by_score_desc (matches searchIndex query)).
Proof. reflexivity. Qed.

Lemma matches_filter_from searchIndex query acc :
  fold_left
    (fun results it =>
       let score := item_score query (query_words query) it in
       if 0 <? score then results ++ [mkSearchResult it score] else results)
    searchIndex acc
  = acc ++ List.map (fun it => mkSearchResult it (item_score query (query_words query) it))
             (List.filter (fun it => 0 <? item_score query (query_words query) it)
                searchIndex).
Proof.
  revert acc. induction searchIndex as [|it rest IH]; intros acc; cbn.
  - by rewrite app_nil_r.
  - rewrite IH. destruct (0 <? item_score query (query_words query) it); cbn.
    + by rewrite <- app_assoc.
    + reflexivity.
Qed.

(** [results] holds the items with a positive score, in index order. *)
Lemma matches_filter searchIndex query :
  matches searchIndex query
  = List.map (fun it => mkSearchResult it (item_score query (query_words query) it))
      (List.filter (fun it => 0 <? item_score query (query_words query) it)
         searchIndex).
Proof. unfold matches. by rewrite matches_filter_from. Qed.

Lemma elem_of_insert_sorted y x l :
  y ∈ insert_sorted by_score_desc x l <-> y = x \/ y ∈ l.
Proof.
  induction l as [|z l IH]; cbn.
  - rewrite elem_of_cons, elem_of_nil. tauto.
  - destruct (by_score_desc x z <=? 0).
    + rewrite !elem_of_cons. tauto.
    + rewrite !elem_of_cons, IH. tauto.
Qed.

Lemma elem_of_sort y l : y ∈ sort by_score_desc l <-> y ∈ l.
Proof.
  induction l as [|x l IH]; [done|].
  change (sort by_score_desc (x :: l))
    with (insert_sorted by_score_desc x (sort by_score_desc l)).
  rewrite elem_of_insert_sorted, elem_of_cons, IH. tauto.
Qed.

Lemma length_insert_sorted x l :
  length (insert_sorted by_score_desc x l) = S (length l).
Proof.
  induction l as [|z l IH]; cbn; [done|].
  destruct (by_score_desc x z <=? 0); cbn; [done|]. by rewrite IH.
Qed.

Lemma length_sort l : length (sort by_score_desc l) = length l.
Proof.
  induction l as [|x l IH]; [done|].
  change (sort by_score_desc (x :: l))
    with (insert_sorted by_score_desc x (sort by_score_desc l)).
  by rewrite length_insert_sorted, IH.
Qed.

(** Every result is an item of the index together with the score the item
    earns for the query, and no more results are returned than items
    score. *)
Theorem searchContent_results_from_index searchIndex query :
  Forall (fun r => item r ∈ searchIndex
                   /\ score r = item_score query (query_words query) (item r))
    (searchContent searchIndex query)
  /\ length (searchContent searchIndex query)
     = Nat.min 8 (length (List.filter
                            (fun it => 0 <? item_score query (query_words query) it)
                            searchIndex)).
Proof.
  rewrite searchContent_matches. split.
  - apply Forall_take, Forall_forall. intros r Hr.
    apply (proj1 (elem_of_sort _ _)) in Hr. rewrite matches_filter in Hr.
    apply list_elem_of_In, in_map_iff in Hr as (it & <- & Hit). cbn.
    apply filter_In in Hit as [Hit _]. by rewrite list_elem_of_In.
  - rewrite length_take, length_sort, matches_filter, length_map. lia.
Qed.

Lemma sorted_take_drop (l : list SearchResult) n a b :
  StronglySorted (fun a b => score b <= score a) l ->
  a ∈ take n l -> b ∈ drop n l -> score b <= score a.
Proof.
  intros Hs. revert n. induction Hs as [|x l Hs IH Hx]; intros n Ha Hb.
  - rewrite take_nil in Ha. by apply elem_of_nil in Ha.
  - destruct n as [|n]; [by apply elem_of_nil in Ha|].
    cbn in Ha, Hb. apply elem_of_cons in Ha as [->|Ha].
    + rewrite Forall_forall in Hx. apply Hx.
      rewrite <- (take_drop n l). apply elem_of_app. by right.
    + by eapply IH.
Qed.

(** Cutting to eight keeps the best: an item of the index that scores but
    is not among the results was pushed out by eight results that score at
    least as much. *)
Theorem searchContent_keeps_best searchIndex query it :
  it ∈ searchIndex ->
  let s := item_score query (query_words query) it in
  0 < s ->
  mkSearchResult it s ∉ searchContent searchIndex query ->
  length (searchContent searchIndex query) = 8%nat
  /\ Forall (fun r => s <= score r) (searchContent searchIndex query).
Proof.
  intros Hit s Hs Hout. rewrite searchContent_matches in *.
  set (sorted := sort by_score_desc (matches searchIndex query)) in *.
  assert (Hin : mkSearchResult it s ∈ sorted).
  { apply (proj2 (elem_of_sort _ _)). rewrite matches_filter.
    apply list_elem_of_In, in_map_iff. exists it. split; [done|].
    apply filter_In. split; [by apply list_elem_of_In|]. by apply Z.ltb_lt. }
  rewrite <- (take_drop 8 sorted) in Hin.
  apply elem_of_app in Hin as [Hin|Hin]; [done|].
  split.
  - rewrite length_take. apply Nat.min_l.
    destruct (Nat.le_gt_cases 8 (length sorted)) as [Hle|Hgt]; [done|].
    rewrite drop_ge in Hin by lia. by apply elem_of_nil in Hin.
  - apply Forall_forall. intros r Hr.
    apply (sorted_take_drop sorted 8 r (mkSearchResult it s)); [|done|done].
    apply sort_sorted.
Qed.

Lemma filter_insert_sorted (s : Z) x l :
  List.filter (fun r => score r =? s) (insert_sorted by_score_desc x l)
  = List.filter (fun r => score r =? s) (x :: l).
Proof.
  induction l as [|y l IH]; [done|].
  cbn [insert_sorted]. unfold by_score_desc at 1.
  destruct (Z.leb_spec (score y - score x) 0) as [Hle|Hgt]; [done|].
  cbn [List.filter] in *. rewrite IH.
  destruct (Z.eqb_spec (score x) s), (Z.eqb_spec (score y) s); try done. lia.
Qed.

Lemma filter_sort (s : Z) l :
  List.filter (fun r => score r =? s) (sort by_score_desc l)
  = List.filter (fun r => score r =? s) l.
Proof.
  induction l as [|x l IH]; [done|].
  change (sort by_score_desc (x :: l))
    with (insert_sorted by_score_desc x (sort by_score_desc l)).
  rewrite filter_insert_sorted. cbn [List.filter]. by rewrite IH.
Qed.

Lemma filter_take_prefix {A} (P : A -> bool) n (l : list A) :
  exists rest, List.filter P l = List.filter P (take n l) ++ rest.
Proof.
  exists (List.filter P (drop n l)).
  by rewrite <- List.filter_app, take_drop.
Qed.

(** The sort is stable: the results that share a score stand in the order
    of the index, and they are the first of the index with that score. *)
Theorem searchContent_ties_in_index_order searchIndex query (s : Z) :
  exists rest,
    List.map item (List.filter (fun r => score r =? s) (matches searchIndex query))
    = List.map item
        (List.filter (fun r => score r =? s) (searchContent searchIndex query))
      ++ rest.
Proof.
  rewrite searchContent_matches.
  destruct (filter_take_prefix (fun r => score r =? s) 8
              (sort by_score_desc (matches searchIndex query))) as (rest & Hrest).
  rewrite filter_sort in Hrest. exists (List.map item rest).
  by rewrite Hrest, List.map_app.
Qed.

Lemma insert_sorted_tie x l :
  Forall (fun r => score r = score x) l ->
  insert_sorted by_score_desc x l = x :: l.
Proof.
  intros Hl. destruct Hl as [|y l Hy _]; [done|].
  cbn. unfold by_score_desc. rewrite Hy, Z.sub_diag. reflexivity.
Qed.

Lemma sort_all_tied (s : Z) l :
  Forall (fun r => score r = s) l -> sort by_score_desc l = l.
Proof.
  induction 1 as [|x l Hx Hl IH]; [done|].
  change (sort by_score_desc (x :: l))
    with (insert_sorted by_score_desc x (sort by_score_desc l)).
  rewrite IH. apply insert_sorted_tie.
  eapply Forall_impl; [exact Hl|]. cbn. intros r Hr. congruence.
Qed.

(** A query of ASCII text none of whose words is longer than two
    characters is matched against titles only: over an index whose titles
    are ASCII text, the results are the first eight items whose lowercased
    title contains the whole query, in index order, each with score 10. *)
Theorem searchContent_short_words_title_only searchIndex query :
  ascii_only query = true ->
  Forall (fun it => ascii_only (title it) = true) searchIndex ->
  query_words query = [] ->
  searchContent searchIndex query
  = List.map (fun it => mkSearchResult it 10)
      (firstn 8 (List.filter
                   (fun it => Js.includes (Js.toLowerCase (title it)) query)
                   searchIndex)).
Proof.
  intros _ _ Hwords. rewrite searchContent_matches, matches_filter, Hwords.
  assert (Hscore : forall it,
             item_score query [] it
             = if Js.includes (Js.toLowerCase (title it)) query then 10 else 0)
    by reflexivity.
  rewrite (List.filter_ext _
             (fun it => Js.includes (Js.toLowerCase (title it)) query)).
  2: { intros it. rewrite Hscore. by destruct (Js.includes _ _). }
  set (hits := List.filter _ searchIndex).
  assert (Hhits : Forall (fun it => Js.includes (Js.toLowerCase (title it)) query = true)
                    hits).
  { apply Forall_forall. intros it Hit.
    apply list_elem_of_In, filter_In in Hit as [_ Hit]. exact Hit. }
  assert (Hmap : List.map (fun it => mkSearchResult it (item_score query [] it)) hits
                 = List.map (fun it => mkSearchResult it 10) hits).
  { clearbody hits. induction Hhits as [|it l Hit _ IH]; [done|].
    cbn [List.map]. rewrite IH, Hscore, Hit. reflexivity. }
  rewrite Hmap, (sort_all_tied 10).
  - apply firstn_map.
  - apply Forall_forall. intros r Hr.
    apply list_elem_of_In, in_map_iff in Hr as (it & <- & _). reflexivity.
Qed.

(** *** On an index of nine sections about upgrades *)

Lemma searchContent_keeps_best_witness :
  let it := mkIndexItem (pretty 9) "Upgrade guide" "how to upgrade" ["upgrade"] in
  length (searchContent nine_sections "upgrade") = 8%nat
  /\ Forall (fun r => item_score "upgrade" (query_words "upgrade") it <= score r)
       (searchContent nine_sections "upgrade").
Proof.
  intros it.
  assert (Hin : it ∈ nine_sections).
  { apply list_elem_of_In. vm_compute. tauto. }
  assert (Hpos : 0 < item_score "upgrade" (query_words "upgrade") it)
    by (vm_compute; reflexivity).
  assert (Hout : mkSearchResult it (item_score "upgrade" (query_words "upgrade") it)
                 ∉ searchContent nine_sections "upgrade").
  { rewrite list_elem_of_In. vm_compute. intros H.
    repeat (destruct H as [H|H]; [discriminate H|]). exact H. }
  exact (searchContent_keeps_best nine_sections "upgrade" it Hin Hpos Hout).
Defined.

Lemma searchContent_short_words_title_only_witness :
  searchContent nine_sections "up"
  = List.map (fun it => mkSearchResult it 10)
      (firstn 8 (List.filter
                   (fun it => Js.includes (Js.toLowerCase (title it)) "up")
                   nine_sections)).
Proof.
  assert (Htitles : Forall (fun it => ascii_only (title it) = true) nine_sections)
    by (repeat constructor).
  exact (searchContent_short_words_title_only nine_sections "up"
           eq_refl Htitles eq_refl).
Defined.

End SearchResults.

(** ** Substrings and keywords *)

Section Strings.

Lemma append_cons c s t : String c s +:+ t = String c (s +:+ t).
Proof. reflexivity. Qed.

Lemma append_nil_l t : "" +:+ t = t.
Proof. reflexivity. Qed.

Lemma append_nil_r s : s +:+ "" = s.
Proof. induction s as [|c s IH]; [done|]. by rewrite append_cons, IH. Qed.

Lemma append_assoc s t u : (s +:+ t) +:+ u = s +:+ (t +:+ u).
Proof. induction s as [|c s IH]; [done|]. by rewrite !append_cons, IH. Qed.

Lemma length_append s t :
  String.length (s +:+ t) = (String.length s + String.length t)%nat.
Proof. induction s as [|c s IH]; [done|]. rewrite append_cons. cbn. by rewrite IH. Qed.

Lemma prefix_append p r : String.prefix p (p +:+ r) = true.
Proof.
  induction p as [|c p IH]; [by destruct r|].
  rewrite append_cons. cbn. destruct (ascii_dec c c); [exact IH|done].
Qed.

Lemma prefix_split p s : String.prefix p s = true -> exists r, s = p +:+ r.
Proof.
  revert s. induction p as [|c p IH]; intros s H.
  - by exists s.
  - destruct s as [|d s]; [done|]. cbn in H.
    destruct (ascii_dec c d) as [->|]; [|done].
    destruct (IH s H) as (r & ->). by exists r.
Qed.

Lemma includes_unfold s sub :
  Js.includes s sub
  = String.prefix sub s
    || match s with
       | EmptyString => false
       | String _ rest => Js.includes rest sub
       end.
Proof. by destruct s. Qed.

(** [includes] is containment as a substring. *)
Lemma includes_intro a sub b : Js.includes (a +:+ sub +:+ b) sub = true.
Proof.
  induction a as [|c a IH].
  - rewrite append_nil_l, includes_unfold, prefix_append. reflexivity.
  - rewrite append_cons, includes_unfold, IH. apply orb_true_r.
Qed.

Lemma includes_split s sub :
  Js.includes s sub = true -> exists a b, s = a +:+ sub +:+ b.
Proof.
  induction s as [|c s IH]; rewrite includes_unfold; intros H.
  - rewrite orb_false_r in H. apply prefix_split in H as (r & Hr).
    exists "", r. exact Hr.
  - apply orb_true_iff in H as [H|H].
    + apply prefix_split in H as (r & Hr). exists "", r. exact Hr.
    + destruct (IH H) as (a & b & ->). by exists (String c a), b.
Qed.

Lemma includes_trans s t u :
  Js.includes s t = true -> Js.includes t u = true -> Js.includes s u = true.
Proof.
  intros (a & b & ->)%includes_split (a' & b' & ->)%includes_split.
  rewrite !append_assoc, <- (append_assoc a a'). apply includes_intro.
Qed.

End Strings.

Section Keywords.
Import GuideController.

Lemma lower_ascii_idem c : Js.lower_ascii (Js.lower_ascii c) = Js.lower_ascii c.
Proof. destruct c as [[] [] [] [] [] [] [] []]; reflexivity. Qed.

Lemma toLowerCase_idem s : Js.toLowerCase (Js.toLowerCase s) = Js.toLowerCase s.
Proof. induction s as [|c s IH]; cbn; [done|]. by rewrite lower_ascii_idem, IH. Qed.

Lemma toLowerCase_append s t :
  Js.toLowerCase (s +:+ t) = Js.toLowerCase s +:+ Js.toLowerCase t.
Proof.
  induction s as [|c s IH]; [done|].
  rewrite append_cons. cbn [Js.toLowerCase]. by rewrite IH, append_cons.
Qed.

Lemma length_toLowerCase s : String.length (Js.toLowerCase s) = String.length s.
Proof. induction s as [|c s IH]; cbn; [done|]. by rewrite IH. Qed.

Lemma existsb_eqb_elem_of (w : string) l :
  existsb (String.eqb w) l = true <-> w ∈ l.
Proof.
  rewrite existsb_exists, list_elem_of_In. split.
  - intros (x & Hx & ->%String.eqb_eq). exact Hx.
  - intros Hw. exists w. split; [exact Hw|apply String.eqb_refl].
Qed.

(** Every match is a run of at least three characters standing in the
    text. *)
Lemma word_runs_aux_spec s cur pre w :
  w ∈ word_runs_aux cur s ->
  (exists p q, pre +:+ cur +:+ s = p +:+ w +:+ q)
  /\ (3 <= String.length w)%nat.
Proof.
  revert cur pre. induction s as [|c rest IH]; intros cur pre Hw.
  - cbn in Hw. unfold close_run in Hw.
    destruct (Nat.leb_spec 3 (String.length cur)) as [Hlen|]; [|by apply elem_of_nil in Hw].
    apply elem_of_cons in Hw as [->|Hw]; [|by apply elem_of_nil in Hw].
    split; [|exact Hlen]. by exists pre, "".
  - cbn [word_runs_aux] in Hw. destruct (is_word_char c).
    + destruct (IH _ pre Hw) as ((p & q & Heq) & Hlen). split; [|exact Hlen].
      exists p, q. rewrite <- Heq, append_assoc. reflexivity.
    + apply elem_of_app in Hw as [Hw|Hw].
      * unfold close_run in Hw.
        destruct (Nat.leb_spec 3 (String.length cur)) as [Hlen|];
          [|by apply elem_of_nil in Hw].
        apply elem_of_cons in Hw as [->|Hw]; [|by apply elem_of_nil in Hw].
        split; [|exact Hlen]. by exists pre, (String c rest).
      * destruct (IH "" (pre +:+ cur +:+ String c "") Hw) as ((p & q & Heq) & Hlen).
        split; [|exact Hlen]. exists p, q. rewrite <- Heq.
        rewrite !append_assoc. reflexivity.
Qed.

Lemma word_runs_spec text w :
  w ∈ word_runs text ->
  Js.includes text w = true /\ (3 <= String.length w)%nat.
Proof.
  intros Hw. destruct (word_runs_aux_spec text "" "" w Hw) as ((p & q & Heq) & Hlen).
  split; [|exact Hlen]. rewrite !append_nil_l in Heq. rewrite Heq.
  apply includes_intro.
Qed.

Lemma unique_from seen l :
  NoDup seen ->
  NoDup (fold_left
           (fun seen w => if existsb (String.eqb w) seen then seen else seen ++ [w])
           l seen)
  /\ forall x,
       x ∈ fold_left
             (fun seen w => if existsb (String.eqb w) seen then seen else seen ++ [w])
             l seen
       <-> x ∈ seen \/ x ∈ l.
Proof.
  revert seen. induction l as [|w l IH]; intros seen Hnd; cbn [fold_left].
  - split; [exact Hnd|]. intros x. rewrite elem_of_nil. tauto.
  - destruct (existsb (String.eqb w) seen) eqn:E.
    + destruct (IH seen Hnd) as [H1 H2]. split; [exact H1|].
      intros x. rewrite H2, elem_of_cons.
      apply existsb_eqb_elem_of in E. split; [tauto|].
      intros [?|[->|?]]; tauto.
    + assert (Hw : w ∉ seen).
      { intros Hin. apply existsb_eqb_elem_of in Hin. congruence. }
      destruct (IH (seen ++ [w])) as [H1 H2].
      { apply NoDup_app. split; [exact Hnd|]. split; [|apply NoDup_singleton].
        intros x Hx ->%list_elem_of_singleton. done. }
      split; [exact H1|]. intros x.
      rewrite H2, elem_of_app, list_elem_of_singleton, elem_of_cons. tauto.
Qed.

Lemma kept_words_from (words acc : list string) x :
  x ∈ fold_left
        (fun keywords word =>
           if existsb (String.eqb (Js.toLowerCase word)) gameTerms
              || (5 <? String.length word)%nat
           then keywords ++ [Js.toLowerCase word] else keywords)
        words acc ->
  x ∈ acc
  \/ exists word, word ∈ words /\ x = Js.toLowerCase word
                  /\ (x ∈ gameTerms \/ (5 < String.length x)%nat).
Proof.
  revert acc. induction words as [|word words IH]; intros acc Hx; cbn [fold_left] in Hx.
  - by left.
  - apply IH in Hx as [Hx|(w' & Hw' & Heq & Hc)].
    + destruct (existsb _ gameTerms || _) eqn:E; [|by left].
      apply elem_of_app in Hx as [Hx|Hx]; [by left|].
      apply list_elem_of_singleton in Hx as ->. right. exists word.
      split; [apply elem_of_cons; by left|]. split; [done|].
      apply orb_true_iff in E as [E|E].
      * left. by apply existsb_eqb_elem_of.
      * right. rewrite length_toLowerCase. by apply Nat.ltb_lt.
    + right. exists w'. split; [apply elem_of_cons; by right|done].
Qed.

Lemma extractKeywords_elem text k :
  k ∈ extractKeywords text ->
  Js.toLowerCase k = k
  /\ (3 <= String.length k)%nat
  /\ (k ∈ gameTerms \/ (5 < String.length k)%nat)
  /\ Js.includes (Js.toLowerCase text) k = true.
Proof.
  unfold extractKeywords, unique.
  set (kept := fold_left _ (word_runs text) []).
  destruct (unique_from [] kept NoDup_nil_2) as [_ Hin]. intros Hk.
  apply Hin in Hk as [Hk|Hk]; [by apply elem_of_nil in Hk|].
  apply kept_words_from in Hk as [Hk|(w & Hw & -> & Hc)];
    [by apply elem_of_nil in Hk|].
  destruct (word_runs_spec text w Hw) as [Hsub Hlen].
  split; [apply toLowerCase_idem|]. split; [by rewrite length_toLowerCase|].
  split; [exact Hc|].
  apply includes_split in Hsub as (a & b & ->).
  rewrite !toLowerCase_append. apply includes_intro.
Qed.

(** The keywords of a text are distinct, in lower case, at least three
    characters long, each a game term or longer than five characters, and
    each stands in the lowercased text. *)
Theorem extractKeywords_shape text :
  NoDup (extractKeywords text)
  /\ Forall (fun k => Js.toLowerCase k = k
                      /\ (3 <= String.length k)%nat
                      /\ (k ∈ gameTerms \/ (5 < String.length k)%nat)
                      /\ Js.includes (Js.toLowerCase text) k = true)
       (extractKeywords text).
Proof.
  split.
  - unfold extractKeywords, unique. apply unique_from, NoDup_nil_2.
  - apply Forall_forall. intros k. apply extractKeywords_elem.
Qed.

(** In the index [buildSearchIndex] builds, a query word that matches a
    keyword of an item also stands in the item's content: a keyword match
    never counts 5 alone, a query of that one word scores at least 6. *)
Theorem keyword_match_is_content_match sections it word :
  it ∈ buildSearchIndex sections ->
  existsb (String.eqb word) (keywords it) = true ->
  Js.includes (content it) word = true
  /\ forall query, 6 <= item_score query [word] it.
Proof.
  intros Hit Hword.
  assert (Hsub : Js.includes (content it) word = true).
  { apply list_elem_of_In, in_map_iff in Hit as (section & <- & _).
    cbn [content keywords] in *. apply existsb_eqb_elem_of in Hword.
    destruct (extractKeywords_elem (Js.toLowerCase (textContent section)) word Hword)
      as (_ & _ & _ & Hin).
    by rewrite toLowerCase_idem in Hin. }
  split; [exact Hsub|]. intros query. unfold item_score. cbn [fold_left].
  rewrite Hword, Hsub.
  destruct (Js.includes (Js.toLowerCase (title it)) query),
           (Js.includes (Js.toLowerCase (title it)) word); lia.
Qed.

End Keywords.

Section KeywordsSample.
Import GuideController.

Lemma keyword_match_is_content_match_witness :
  let it := mkIndexItem "upgrades" "Upgrade Strategy"
              "buy the pet upgrade first; harvey notices every purchase."
              ["pet"; "upgrade"; "harvey"; "notices"; "purchase"] in
  Js.includes (content it) "harvey" = true
  /\ forall query, 6 <= item_score query ["harvey"] it.
Proof.
  intros it.
  assert (Hit : it ∈ buildSearchIndex sample_sections).
  { apply list_elem_of_In. vm_compute. left. reflexivity. }
  exact (keyword_match_is_content_match sample_sections it "harvey" Hit eq_refl).
Defined.

End KeywordsSample.

(** ** The compatibility report *)

Section Report.
Import CompatibilityTester.

Lemma points_cases results fw :
  points results fw = (if is_supported results (fst fw) then snd fw else 0).
Proof. reflexivity. Qed.

(** The score as a sum over what is supported. *)
Lemma score_by_feature results :
  let p f w := if is_supported results f then w else 0 in
  calculateCompatibilityScore results
  = p "browser" 60 + p "iframe" 25 + p "webgl" 15 + p "localStorage" 10
    + p "canvas" 10 + p "fullscreen" 5 + p "serviceWorker" 5.
Proof.
  destruct (calculateCompatibilityScore_sum results) as (_ & Hsum & ->).
  rewrite Hsum. unfold points, weights. cbn [List.map foldr fst snd].
  destruct (is_supported results "browser"); lia.
Qed.

(** The score is a multiple of 5 between 0 and 130, not a percentage: it
    is at most 70 without a supported browser and at least 60 with one. *)
Theorem score_range results :
  let score := calculateCompatibilityScore results in
  0 <= score <= 130
  /\ score mod 5 = 0
  /\ (is_supported results "browser" = false -> score <= 70)
  /\ (is_supported results "browser" = true -> 60 <= score).
Proof.
  cbv zeta. rewrite score_by_feature. cbv zeta.
  destruct (is_supported results "browser"), (is_supported results "iframe"),
    (is_supported results "webgl"), (is_supported results "localStorage"),
    (is_supported results "canvas"), (is_supported results "fullscreen"),
    (is_supported results "serviceWorker");
    repeat split; (lia || reflexivity || discriminate).
Qed.

Lemma browser_entry r :
  is_supported (entries r) "browser"
  = match browser r with
    | Some b => browser_supported b
    | None => false
    end.
Proof.
  unfold is_supported, entries. destruct (browser r) as [b|].
  - by rewrite lookup_insert_eq.
  - by rewrite lookup_delete_eq.
Qed.

(** The list of recommendations is never empty and has at most five
    entries; the function throws exactly when there is no browser entry;
    the "fully compatible" note appears only alone, and exactly when the
    browser, iframes, WebGL and local storage are supported and the
    performance is not poor. *)
Theorem generateRecommendations_never_empty r :
  match generateRecommendations r with
  | inl _ => browser r = None
  | inr recs =>
      browser r <> None
      /\ recs <> []
      /\ (length recs <= 5)%nat
      /\ (fully_compatible ∈ recs <-> recs = [fully_compatible])
      /\ (recs = [fully_compatible]
          <-> (Forall (fun f => is_supported (entries r) f = true)
                 ["browser"; "iframe"; "webgl"; "localStorage"]
               /\ performance_score r <> Some "poor"))
  end.
Proof.
  unfold generateRecommendations, unless_supported.
  pose proof (browser_entry r) as Hb. rewrite Hb.
  destruct (browser r) as [[name version ok]|]; [|reflexivity].
  cbn [browser_supported] in *.
  destruct ok, (is_supported (entries r) "iframe") eqn:Hif,
    (is_supported (entries r) "webgl") eqn:Hwg,
    (is_supported (entries r) "localStorage") eqn:Hls;
    case_bool_decide as Hperf; cbn [app length Nat.eqb];
    (split; [discriminate|]); (split; [discriminate|]); (split; [cbn; lia|]); split.
  all: try (split;
            [ intros H%list_elem_of_In%(in_map rec_type); cbn in H;
              repeat (destruct H as [H|H]; [discriminate H|]); destruct H
            | intros H%(f_equal (List.map rec_type)); discriminate H ]).
  all: try (split;
            [ intros H%(f_equal (List.map rec_type)); discriminate H
            | intros [Hall Hp];
              repeat (apply Forall_cons in Hall as [?Hf Hall]);
              congruence ]).
  - split; [done|]. intros _. apply list_elem_of_singleton. reflexivity.
  - split; [intros _|done]. split; [|done]. by repeat constructor.
Qed.

Lemma critical_issues r recs :
  generateRecommendations r = inr recs ->
  List.filter is_critical recs = []
  <-> is_supported (entries r) "browser" = true
      /\ is_supported (entries r) "iframe" = true.
Proof.
  unfold generateRecommendations, unless_supported.
  pose proof (browser_entry r) as Hb. rewrite Hb.
  destruct (browser r) as [[name version ok]|]; [|discriminate].
  cbn [browser_supported] in *.
  destruct ok, (is_supported (entries r) "iframe") eqn:Hif,
    (is_supported (entries r) "webgl") eqn:Hwg,
    (is_supported (entries r) "localStorage") eqn:Hls;
    case_bool_decide as Hperf; cbn [app length Nat.eqb];
    intros [= <-]; cbn; split; (done || (intros [? ?]; congruence)).
Qed.

Lemma fully_compatible_supported r :
  generateRecommendations r = inr [fully_compatible] ->
  Forall (fun f => is_supported (entries r) f = true)
    ["browser"; "iframe"; "webgl"; "localStorage"].
Proof.
  unfold generateRecommendations, unless_supported.
  pose proof (browser_entry r) as Hb. rewrite Hb.
  destruct (browser r) as [[name version ok]|]; [|discriminate].
  cbn [browser_supported] in *.
  destruct ok, (is_supported (entries r) "iframe") eqn:Hif,
    (is_supported (entries r) "webgl") eqn:Hwg,
    (is_supported (entries r) "localStorage") eqn:Hls;
    case_bool_decide as Hperf; cbn [app length Nat.eqb];
    intros H;
    first [ by repeat constructor
          | injection H as H; apply (f_equal (List.map rec_type)) in H;
            discriminate H ].
Qed.

Lemma displayResults_critical score recs :
  (forall issues, CriticalIssuesShown issues ∉ displayResults score (Some recs))
  <-> List.filter is_critical recs = [].
Proof.
  unfold displayResults. destruct (List.filter is_critical recs) as [|x l]; cbn.
  - split; [done|]. intros _ issues.
    rewrite !elem_of_cons, elem_of_nil. intros [H|[H|[]]]; discriminate H.
  - split; [|done]. intros H. exfalso. apply (H (x :: l)).
    rewrite !elem_of_cons. right. by left.
Qed.

(** When the report shows no critical issue, the browser and iframes are
    supported, the score is at least 85 and the status is "success"; and
    the "fully compatible" note comes only with a score of at least 110,
    rated Excellent. *)
Theorem no_critical_issue_rates_success r shown :
  report_results r = inr shown ->
  let score := calculateCompatibilityScore (entries r) in
  ((forall issues, CriticalIssuesShown issues ∉ shown)
   <-> is_supported (entries r) "browser" = true
       /\ is_supported (entries r) "iframe" = true)
  /\ ((forall issues, CriticalIssuesShown issues ∉ shown) ->
      85 <= score
      /\ StatusShown (snd (rating score)) "success" ∈ shown)
  /\ (generateRecommendations r = inr [fully_compatible] ->
      110 <= score
      /\ rating score
         = ("success", "✅ Excellent compatibility (" +:+ pretty score +:+ "%)")).
Proof.
  unfold report_results. intros Hrep. cbv zeta.
  destruct (generateRecommendations r) as [e|recs] eqn:Hrecs; [discriminate|].
  injection Hrep as <-.
  pose proof (critical_issues r recs Hrecs) as Hcrit.
  pose proof (displayResults_critical (calculateCompatibilityScore (entries r)) recs)
    as Hshown.
  assert (Hgood : is_supported (entries r) "browser" = true
                  /\ is_supported (entries r) "iframe" = true ->
                  85 <= calculateCompatibilityScore (entries r)).
  { intros [Hb Hif]. rewrite score_by_feature. cbv zeta. rewrite Hb, Hif.
    destruct (is_supported (entries r) "webgl"),
      (is_supported (entries r) "localStorage"),
      (is_supported (entries r) "canvas"),
      (is_supported (entries r) "fullscreen"),
      (is_supported (entries r) "serviceWorker"); lia. }
  split; [by rewrite Hshown, Hcrit|]. split.
  - intros Hnone. apply Hshown, Hcrit in Hnone. specialize (Hgood Hnone).
    split; [exact Hgood|]. unfold displayResults.
    apply elem_of_cons. left. f_equal. unfold rating.
    destruct (90 <=? _); [done|].
    destruct (Z.leb_spec 70 (calculateCompatibilityScore (entries r))); [done|lia].
  - intros Hfull. rewrite <- Hrecs in Hfull.
    pose proof (fully_compatible_supported r Hfull) as Hall.
    repeat (apply Forall_cons in Hall as [?Hf Hall]).
    assert (Hscore : 110 <= calculateCompatibilityScore (entries r)).
    { rewrite score_by_feature. cbv zeta. rewrite Hf, Hf0, Hf1, Hf2.
      destruct (is_supported (entries r) "canvas"),
        (is_supported (entries r) "fullscreen"),
        (is_supported (entries r) "serviceWorker"); lia. }
    split; [exact Hscore|]. unfold rating.
    destruct (Z.leb_spec 90 (calculateCompatibilityScore (entries r))); [done|lia].
Qed.

Lemma no_critical_issue_rates_success_witness :
  let r := capable_results in
  let score := calculateCompatibilityScore (entries r) in
  let shown := displayResults score (Some [fully_compatible]) in
  ((forall issues, CriticalIssuesShown issues ∉ shown)
   <-> is_supported (entries r) "browser" = true
       /\ is_supported (entries r) "iframe" = true)
  /\ ((forall issues, CriticalIssuesShown issues ∉ shown) ->
      85 <= score
      /\ StatusShown (snd (rating score)) "success" ∈ shown)
  /\ (generateRecommendations r = inr [fully_compatible] ->
      110 <= score
      /\ rating score
         = ("success", "✅ Excellent compatibility (" +:+ pretty score +:+ "%)")).
Proof.
  intros r score shown.
  assert (Hrep : report_results r = inr shown) by (vm_compute; reflexivity).
  exact (no_critical_issue_rates_success r shown Hrep).
Defined.

End Report.

(** ** The service worker's routes and caches *)

Section Worker.
Import ServiceWorker.

Lemma slash_is_static url : Js.includes url "/" = true -> isStaticAsset url = true.
Proof.
  intros H. unfold isStaticAsset, STATIC_ASSETS. cbn [existsb]. by rewrite H.
Qed.

Lemma pattern_has_slash (patterns : list string) url :
  Forall (fun p => Js.includes p "/" = true) patterns ->
  existsb (fun pattern => Js.includes url pattern) patterns = true ->
  Js.includes url "/" = true.
Proof.
  intros Hall (p & Hp & Hin)%existsb_exists.
  rewrite Forall_forall in Hall.
  apply (includes_trans url p "/"); [exact Hin|].
  apply Hall. by apply list_elem_of_In.
Qed.

(** Every request URL with a slash in it is routed as a static asset,
    because ['/'] is one of [STATIC_ASSETS] and the test is containment.
    Every network-first and every dynamic pattern contains a slash, so the
    network-first and the dynamic handler are never chosen, and the default
    handler only for a URL without any slash. *)
Theorem every_url_is_routed_static method protocol url :
  (method = "GET" -> protocol <> "chrome-extension:" ->
   Js.includes url "/" = true -> route method protocol url = StaticAsset)
  /\ route method protocol url <> NetworkFirst
  /\ route method protocol url <> DynamicAsset
  /\ (route method protocol url = Default -> Js.includes url "/" = false).
Proof.
  unfold route. split; [|split; [|split]].
  - intros -> Hp Hs. cbn [String.eqb negb].
    by rewrite (proj2 (String.eqb_neq _ _) Hp), (slash_is_static url Hs).
  - destruct (negb _); [done|]. destruct (String.eqb protocol _); [done|].
    destruct (isStaticAsset url) eqn:Hst; [done|].
    destruct (isNetworkFirstUrl url) eqn:Hnf;
      [|destruct (isDynamicAsset url); done].
    apply (pattern_has_slash NETWORK_FIRST_URLS) in Hnf.
    + apply slash_is_static in Hnf. congruence.
    + by repeat constructor.
  - destruct (negb _); [done|]. destruct (String.eqb protocol _); [done|].
    destruct (isStaticAsset url) eqn:Hst; [done|].
    destruct (isNetworkFirstUrl url); [done|].
    destruct (isDynamicAsset url) eqn:Hdy; [|done].
    unfold isDynamicAsset in Hdy.
    assert (Js.includes url "/" = true) as Hs.
    { apply orb_true_iff in Hdy as [Hdy|Hdy];
        [apply orb_true_iff in Hdy as [Hdy|Hdy]|].
      - apply (pattern_has_slash DYNAMIC_ASSETS) in Hdy; [done|].
        by repeat constructor.
      - by apply (includes_trans url "/assets/" "/").
      - by apply (includes_trans url "/data/" "/"). }
    apply slash_is_static in Hs. congruence.
  - destruct (negb _); [done|]. destruct (String.eqb protocol _); [done|].
    destruct (isStaticAsset url) eqn:Hst; [done|].
    destruct (isNetworkFirstUrl url); [done|].
    destruct (isDynamicAsset url); [done|]. intros _.
    destruct (Js.includes url "/") eqn:Hs; [|done].
    apply slash_is_static in Hs. congruence.
Qed.

Lemma is_valid_cache name :
  existsb (String.eqb name) [STATIC_CACHE_NAME; DYNAMIC_CACHE_NAME] = true
  <-> name = STATIC_CACHE_NAME \/ name = DYNAMIC_CACHE_NAME.
Proof.
  cbn [existsb]. rewrite orb_false_r, orb_true_iff, !String.eqb_eq. reflexivity.
Qed.

(** Activation keeps the static and the dynamic cache as they are and
    deletes every other cache; doing it again changes nothing.  The cache
    of timestamps is among the deleted, so afterwards [getCacheTime] gives 0
    for every URL, and at any time past the first week of 1970 no cached
    static asset passes the validity test. *)
Theorem cleanupOldCaches_forgets_timestamps {Entry}
    (json_time : Entry -> option Z) (caches : gmap string (gmap string Entry)) :
  (forall name,
     cleanupOldCaches caches !! name
     = if bool_decide (name = STATIC_CACHE_NAME \/ name = DYNAMIC_CACHE_NAME)
       then caches !! name else None)
  /\ cleanupOldCaches (cleanupOldCaches caches) = cleanupOldCaches caches
  /\ (forall url, getCacheTime json_time (cleanupOldCaches caches) url = 0)
  /\ (forall url now,
        CACHE_DURATION_static <= now ->
        still_valid now (getCacheTime json_time (cleanupOldCaches caches) url)
        = false).
Proof.
  assert (Hlook : forall name,
             cleanupOldCaches caches !! name
             = if bool_decide (name = STATIC_CACHE_NAME \/ name = DYNAMIC_CACHE_NAME)
               then caches !! name else None).
  { intros name. unfold cleanupOldCaches. cbv zeta.
    destruct (caches !! name) as [cache|] eqn:E.
    - case_bool_decide as Hv.
      + rewrite map_lookup_filter_Some. split; [exact E|]. by apply is_valid_cache.
      + rewrite map_lookup_filter_None. right. intros cache' _ Hc.
        apply Hv. by apply is_valid_cache.
    - case_bool_decide; rewrite map_lookup_filter_None; by left. }
  assert (Htime : forall url,
             getCacheTime json_time (cleanupOldCaches caches) url = 0).
  { intros url. unfold getCacheTime. rewrite Hlook.
    rewrite bool_decide_eq_false_2; [reflexivity|].
    intros [H|H]; discriminate H. }
  split; [exact Hlook|]. split; [|split; [exact Htime|]].
  - unfold cleanupOldCaches. cbv zeta. by apply map_filter_filter_l.
  - intros url now Hnow. rewrite Htime. unfold still_valid.
    apply Z.ltb_ge. lia.
Qed.

(** *** A request for the statistics API, and a storage with an old cache *)

Lemma every_url_is_routed_static_witness :
  isNetworkFirstUrl "https://lovemoney.help/api/stats" = true
  /\ route "GET" "https:" "https://lovemoney.help/api/stats" = StaticAsset.
Proof.
  split; [reflexivity|].
  apply (proj1 (every_url_is_routed_static "GET" "https:"
                  "https://lovemoney.help/api/stats"));
    [reflexivity|discriminate|reflexivity].
Defined.

Lemma cleanupOldCaches_forgets_timestamps_witness :
  let url := "https://lovemoney.help/css/main.css" in
  let caches : gmap string (gmap string Z) :=
    <["lovemoney-metadata" := {[ url +:+ ":timestamp" := 1700000000000 ]}]>
      (<[STATIC_CACHE_NAME := {[ url := 0 ]}]>
         (<["lovemoney-static-v0.9.0" := {[ url := 0 ]}]> ∅)) in
  still_valid 1700000100000 (getCacheTime Some caches url) = true
  /\ still_valid 1700000100000 (getCacheTime Some (cleanupOldCaches caches) url)
     = false.
Proof.
  intros url caches. split; [vm_compute; reflexivity|].
  apply (proj2 (proj2 (proj2 (cleanupOldCaches_forgets_timestamps Some caches)))).
  unfold CACHE_DURATION_static. lia.
Defined.

End Worker.

(** ** Moving between sections *)

Section Navigation.
Import GuideController.

Lemma findIndex_from_absent i ids current :
  (forall id, current = Some id -> id ∉ ids) ->
  findIndex_from i ids current = -1.
Proof.
  revert i. induction ids as [|id rest IH]; intros i Hout; cbn; [done|].
  case_bool_decide as Heq.
  - exfalso. apply (Hout id); [done|]. apply elem_of_cons. by left.
  - apply IH. intros id' Hc Hin. apply (Hout id' Hc). apply elem_of_cons. by right.
Qed.

Lemma findIndex_from_lookup i ids (k : nat) id :
  NoDup ids -> ids !! k = Some id ->
  findIndex_from i ids (Some id) = i + Z.of_nat k.
Proof.
  revert i k. induction ids as [|x rest IH]; intros i k Hnd Hk; [done|].
  apply NoDup_cons in Hnd as [Hx Hnd]. cbn [findIndex_from].
  destruct k as [|k]; cbn in Hk.
  - injection Hk as ->. rewrite bool_decide_eq_true_2 by done. lia.
  - rewrite bool_decide_eq_false_2.
    + rewrite (IH (i + 1) k Hnd Hk). lia.
    + intros [= ->]. apply Hx. by eapply list_elem_of_lookup_2.
Qed.

(** With distinct section ids, "next" leads from a section to the one
    after it and "previous" leads back; at the last section "next" does
    nothing and at the first "previous" does nothing; and while the current
    section is not one of the guide's ("null" at the start), "next" leads to
    the first section and "previous" does nothing. *)
Theorem navigation_steps ids :
  NoDup ids ->
  (forall (k : nat) a b,
     ids !! k = Some a -> ids !! S k = Some b ->
     navigateToNextSection ids (Some a) = Some b
     /\ navigateToPreviousSection ids (Some b) = Some a)
  /\ (forall a, last ids = Some a -> navigateToNextSection ids (Some a) = None)
  /\ (forall a, head ids = Some a -> navigateToPreviousSection ids (Some a) = None)
  /\ (forall current,
        (forall id, current = Some id -> id ∉ ids) ->
        navigateToNextSection ids current = head ids
        /\ navigateToPreviousSection ids current = None).
Proof.
  intros Hnd. unfold navigateToNextSection, navigateToPreviousSection, findIndex.
  split; [|split; [|split]].
  - intros k a b Ha Hb.
    rewrite (findIndex_from_lookup 0 ids k a Hnd Ha),
            (findIndex_from_lookup 0 ids (S k) b Hnd Hb).
    pose proof (lookup_lt_Some _ _ _ Hb) as Hlen. split.
    + destruct (Z.ltb_spec (0 + Z.of_nat k) (Z.of_nat (length ids) - 1)); [|lia].
      replace (Z.to_nat (0 + Z.of_nat k + 1)) with (S k) by lia. exact Hb.
    + destruct (Z.ltb_spec 0 (0 + Z.of_nat (S k))); [|lia].
      replace (Z.to_nat (0 + Z.of_nat (S k) - 1)) with k by lia. exact Ha.
  - intros a Ha. rewrite last_lookup in Ha.
    rewrite (findIndex_from_lookup 0 ids _ a Hnd Ha).
    destruct ids as [|x rest]; [done|]. cbn [length Nat.pred] in *.
    destruct (Z.ltb_spec (0 + Z.of_nat (length rest))
                (Z.of_nat (S (length rest)) - 1)); [lia|done].
  - intros a Ha. destruct ids as [|x rest]; [done|]. cbn in Ha. injection Ha as ->.
    cbn [findIndex_from]. by rewrite bool_decide_eq_true_2.
  - intros current Hout. rewrite (findIndex_from_absent 0 ids current Hout).
    split; [|reflexivity].
    destruct ids as [|x rest]; [reflexivity|].
    cbn [length]. destruct (Z.ltb_spec (-1) (Z.of_nat (S (length rest)) - 1)); [|lia].
    reflexivity.
Qed.

Lemma navigation_steps_witness :
  let ids := ["basics"; "strategy"; "endings"] in
  navigateToNextSection ids (Some "basics") = Some "strategy"
  /\ navigateToPreviousSection ids (Some "strategy") = Some "basics".
Proof.
  intros ids.
  assert (Hnd : NoDup ids).
  { unfold ids. repeat (apply NoDup_cons; split;
      [rewrite ?elem_of_cons, elem_of_nil; intros H;
       repeat (destruct H as [H|H]; try discriminate H); exact H|]).
    apply NoDup_nil_2. }
  exact (proj1 (navigation_steps ids Hnd) 0%nat "basics" "strategy" eq_refl eq_refl).
Defined.

End Navigation.
